(** * cycle_detector: the ancestors matrix and the insert_link decision rule

    A shallow embedding of [src/cycle_detector.c].  The program keeps one
    global bit matrix, [FIELD ancestors[TOTAL_NODES][FIELDS_PER_NODE]], and
    five functions over it.  The embedding threads the matrix through a state
    monad whose results may be undefined: an array access outside the array
    and an [int] shift by a count that is not below the width of [int] have
    no defined behaviour in C, and are kept apart from ordinary results.

    What the source leaves to the target, the size of [unsigned long] and the
    width of [size_t], is a parameter of the embedding ([Build]), together
    with [TOTAL_NODES]; the functions are the same for every build.  The
    properties of the algorithm are proved for all builds in which [FIELD] is
    no wider than [int] ([well_sized]); the source with a 32-bit [long] is
    one of them, the source with a 64-bit [long] is not, and what happens
    there is stated separately.

    The functions of the claims are modelled without their terminal output;
    [insert_link_printing], [main] and [print_corner] add the output, and
    [main] is taken over the pairs of integers that [scanf] converts. *)

From Stdlib Require Import ZArith Lia List Bool Relations.
From Stdlib Require DecimalString HexadecimalString.
From stdpp Require Import base list list_numbers strings.

Local Open Scope Z_scope.

(** ** C integers *)

Module C.

(** [int] is 32 bits wide, two's complement. *)
Definition INT_BITS : Z := 32.
Definition INT_MIN : Z := - 2 ^ 31.
Definition INT_MAX : Z := 2 ^ 31 - 1.

(** Conversion of an integer value to [int]: kept when representable,
    reduced modulo 2^32 otherwise. *)
Definition to_int (z : Z) : Z := (z + 2 ^ 31) mod 2 ^ 32 - 2 ^ 31.

(** Conversion of an integer value to an unsigned type of [w] bits. *)
Definition to_unsigned (w z : Z) : Z := z mod 2 ^ w.

Inductive fault : Set :=
| OutOfBounds   (* an array element outside the array is read or written *)
| ShiftTooWide. (* the count of a shift is negative or not below the width *)

Inductive result (A : Type) : Type :=
| Ok (a : A)
| Undefined (f : fault).
Arguments Ok {A} a.
Arguments Undefined {A} f.

(** [a << n] on [int] operands.  The count has to lie in [0, 32); the bits
    shifted into the sign position give the negative value with that bit
    pattern, so that [1 << 31] is [INT_MIN]. *)
Definition shl_int (a n : Z) : result Z :=
  if (0 <=? n) && (n <? INT_BITS) then Ok (to_int (Z.shiftl a n))
  else Undefined ShiftTooWide.

End C.
Export C.

(** ** The constants of a build

    [FIELD] is [unsigned long]; its size is fixed by the target, as is the
    width of [size_t], the type of [sizeof(FIELD)*8].  [TOTAL_NODES] is a
    [#define] of the program. *)

Class Build : Set := {
  sizeof_FIELD : Z;   (* sizeof(unsigned long), in bytes *)
  SIZE_BITS : Z;      (* width of size_t, in bits *)
  TOTAL_NODES : Z     (* #define TOTAL_NODES *)
}.

(** The program as it is in the source, on a target with a 32-bit [long]
    (ILP32) and on one with a 64-bit [long] (LP64). *)
Definition ILP32 : Build :=
  {| sizeof_FIELD := 4; SIZE_BITS := 32; TOTAL_NODES := 65536 |}.
Definition LP64 : Build :=
  {| sizeof_FIELD := 8; SIZE_BITS := 64; TOTAL_NODES := 65536 |}.

(** A reduced build, small enough to run whole scenarios. *)
Definition small : Build :=
  {| sizeof_FIELD := 4; SIZE_BITS := 32; TOTAL_NODES := 64 |}.

(** Return values of [insert_link] and the Boolean values. *)
Definition FAIL : Z := 0.
Definition PASS : Z := 1.
Definition BAD_DATA : Z := 2.
Definition TRUE : Z := 1.
Definition FALSE : Z := 0.

(** The condition of an [if]: any value but 0. *)
Definition truthy (z : Z) : bool := negb (z =? 0).

(** The matrix is a list of rows, a row a list of [FIELD] values. *)
Abbreviation matrix := (list (list Z)).

(** ** State with undefined behaviour *)

Definition M (A : Type) : Type := matrix -> result (A * matrix).

Definition ret {A} (a : A) : M A := fun m => Ok (a, m).

Definition bind {A B} (c : M A) (k : A -> M B) : M B :=
  fun m => match c m with
           | Ok (a, m') => k a m'
           | Undefined f => Undefined f
           end.

Definition lift {A} (r : result A) : M A :=
  fun m => match r with Ok a => Ok (a, m) | Undefined f => Undefined f end.

Notation "x <- c ;; k" := (bind c (fun x => k))
  (at level 100, c at next level, right associativity).
Notation "c ;;; k" := (bind c (fun _ => k))
  (at level 100, right associativity).

(** [for (k = ...; ...; k++) body(k)], over the values [ks] the counter takes. *)
Fixpoint for_each (ks : list Z) (body : Z -> M unit) : M unit :=
  match ks with
  | [] => ret tt
  | k :: ks' => body k ;;; for_each ks' body
  end.

(** Element [i] of an array; there is none below 0 or past the end. *)
Definition index {A} (l : list A) (i : Z) : option A :=
  if 0 <=? i then l !! Z.to_nat i else None.

(** Reading [ancestors[r][c]]. *)
Definition load (r c : Z) : M Z := fun m =>
  match index m r with
  | Some row =>
      match index row c with
      | Some w => Ok (w, m)
      | None => Undefined OutOfBounds
      end
  | None => Undefined OutOfBounds
  end.

(** Writing [ancestors[r][c] = w]. *)
Definition store (r c w : Z) : M unit := fun m =>
  match index m r with
  | Some row =>
      match index row c with
      | Some _ => Ok (tt, <[Z.to_nat r := <[Z.to_nat c := w]> row]> m)
      | None => Undefined OutOfBounds
      end
  | None => Undefined OutOfBounds
  end.

(** ** The program *)

Section Program.
Context {B : Build}.

(** [#define FIELD_SIZE (sizeof(FIELD)*8)] *)
Definition FIELD_SIZE : Z := sizeof_FIELD * 8.

(** [#define FIELDS_PER_NODE (TOTAL_NODES/FIELD_SIZE)] *)
Definition FIELDS_PER_NODE : Z := TOTAL_NODES / FIELD_SIZE.

(** Conversions to [FIELD] and to [size_t]. *)
Definition to_FIELD (z : Z) : Z := to_unsigned FIELD_SIZE z.
Definition to_size_t (z : Z) : Z := to_unsigned SIZE_BITS z.

(** [n / FIELD_SIZE] and [n % FIELD_SIZE] for an [int] n: [FIELD_SIZE] is a
    [size_t], so n is converted to [size_t] first, and the result is
    converted back to [int] when it is assigned. *)
Definition target_chunk (n : Z) : Z := to_int (to_size_t n / FIELD_SIZE).
Definition target_bit (n : Z) : Z := to_int (to_size_t n mod FIELD_SIZE).

(** The static matrix before [main] runs: all zero. *)
Definition zeroed : matrix :=
  replicate (Z.to_nat TOTAL_NODES) (replicate (Z.to_nat FIELDS_PER_NODE) 0).

Definition is_ancestor (n_node n_ancestor : Z) : M Z :=
  let n_target_chunk := target_chunk n_ancestor in
  let n_target_bit := target_bit n_ancestor in
  one <- lift (shl_int 1 n_target_bit) ;;
  let bit_to_get := to_FIELD one in
  w <- load n_node n_target_chunk ;;
  if truthy (Z.land w bit_to_get) then ret TRUE else ret FALSE.

Definition set_ancestor (n_descendant n_ancestor : Z) : M unit :=
  let n_target_chunk := target_chunk n_ancestor in
  let n_target_bit := target_bit n_ancestor in
  bit_to_set <- lift (shl_int 1 n_target_bit) ;;
  w <- load n_descendant n_target_chunk ;;
  store n_descendant n_target_chunk (Z.lor w (to_FIELD bit_to_set)).

(** The body of the outer loop of [insert_ancestors], for one k. *)
Definition or_row (start_node k : Z) : M unit :=
  for_each (seqZ 0 FIELDS_PER_NODE) (fun n_field =>
    a <- load k n_field ;;
    b <- load start_node n_field ;;
    store k n_field (Z.lor a b)).

Definition insert_ancestors_step (start_node end_node k : Z) : M unit :=
  t <- is_ancestor k end_node ;;
  if truthy t then or_row start_node k else ret tt.

(** [insert_ancestors] with the outer loop visiting the rows in the order
    [ks]; the source visits 0, 1, ..., TOTAL_NODES-1. *)
Definition insert_ancestors_in_order (ks : list Z) (start_node end_node : Z)
  : M unit :=
  for_each ks (insert_ancestors_step start_node end_node).

Definition insert_ancestors (start_node end_node : Z) : M unit :=
  insert_ancestors_in_order (seqZ 0 TOTAL_NODES) start_node end_node.

Definition initialize_ancestors : M unit :=
  for_each (seqZ 0 TOTAL_NODES) (fun i => set_ancestor i i).

Definition insert_link (start_node end_node : Z) : M Z :=
  if start_node >=? TOTAL_NODES then ret BAD_DATA
  else if end_node >=? TOTAL_NODES then ret BAD_DATA
  else if start_node =? end_node then ret FAIL
  else
    t <- is_ancestor start_node end_node ;;
    if truthy t then ret FAIL
    else insert_ancestors start_node end_node ;;; ret PASS.

(** A run of [main]: [initialize_ancestors] on the zeroed matrix, then one
    [insert_link] per request; the results are collected in order. *)
Fixpoint insert_links (calls : list (Z * Z)) : M (list Z) :=
  match calls with
  | [] => ret []
  | (s, t) :: rest =>
      r <- insert_link s t ;;
      rs <- insert_links rest ;;
      ret (r :: rs)
  end.

Definition session (calls : list (Z * Z)) : result (list Z * matrix) :=
  (initialize_ancestors ;;; insert_links calls) zeroed.

End Program.

(** ** Vocabulary of the specification *)

Section Views.
Context {B : Build}.

(** The builds the properties below are proved for: [FIELD] is no wider
    than [int], so that every [1 << n_target_bit] has a count below the
    width of its operand; [size_t] is at least as wide as [int];
    [TOTAL_NODES] is an [int] and a multiple of [FIELD_SIZE] (the source:
    "Code has only been tested for values of TOTAL_NODES that are powers of
    2 and an integral multiple of FIELD_SIZE"). *)
Definition well_sized : Prop :=
  0 < sizeof_FIELD /\ FIELD_SIZE <= INT_BITS /\ INT_BITS <= SIZE_BITS /\
  0 < TOTAL_NODES <= INT_MAX /\ TOTAL_NODES mod FIELD_SIZE = 0.

(** The matrix has the declared dimensions. *)
Definition shaped (m : matrix) : Prop :=
  length m = Z.to_nat TOTAL_NODES /\
  Forall (fun r : list Z => length r = Z.to_nat FIELDS_PER_NODE) m.

(** Every field of the matrix is a value of type [FIELD]. *)
Definition FIELD_value (w : Z) : Prop := 0 <= w < 2 ^ FIELD_SIZE.
Definition ranged (m : matrix) : Prop := Forall (Forall FIELD_value) m.

(** Node identifiers of the graph: [0, TOTAL_NODES). *)
Definition node (i : Z) : Prop := 0 <= i < TOTAL_NODES.

(** Row [k] of the matrix, and the field [c] of a row. *)
Definition row (m : matrix) (k : Z) : list Z := default [] (index m k).
Definition field (r : list Z) (c : Z) : Z := default 0 (index r c).

(** Bit [j] of a row: bit [j % FIELD_SIZE] of field [j / FIELD_SIZE]. *)
Definition row_bit (r : list Z) (j : Z) : bool :=
  Z.testbit (field r (j / FIELD_SIZE)) (j mod FIELD_SIZE).

(** The entry [ancestors[i][j]] of the Boolean matrix. *)
Definition entry (m : matrix) (i j : Z) : bool := row_bit (row m i) j.

(** Bitwise union of two rows. *)
Definition row_union (r1 r2 : list Z) : list Z := zip_with Z.lor r1 r2.

(** A row with bit [j] set. *)
Definition with_bit (r : list Z) (j : Z) : list Z :=
  <[Z.to_nat (j / FIELD_SIZE) :=
      Z.lor (field r (j / FIELD_SIZE)) (2 ^ (j mod FIELD_SIZE))]> r.

(** The matrix with row [k] replaced. *)
Definition set_row (m : matrix) (k : Z) (r : list Z) : matrix :=
  <[Z.to_nat k := r]> m.

(** A row takes up the row [rs] when it has bit [t] set. *)
Definition absorb (rs : list Z) (t : Z) (r : list Z) : list Z :=
  if row_bit r t then row_union r rs else r.

(** The matrix in which every row that has bit [t] set is united with row
    [s] of [m], and every other row is as it is in [m]. *)
Definition propagated (s t : Z) (m : matrix) : matrix :=
  absorb (row m s) t <$> m.

(** The links for which [insert_link] returned PASS, given the calls and
    their results. *)
Fixpoint accepted (calls : list (Z * Z)) (rs : list Z) : list (Z * Z) :=
  match calls, rs with
  | c :: calls', r :: rs' =>
      if r =? PASS then c :: accepted calls' rs' else accepted calls' rs'
  | _, _ => []
  end.

(** [a -> b] is one of the links [E]; a path is a chain of links. *)
Definition link (E : list (Z * Z)) : relation Z := fun a b => In (a, b) E.
Definition path (E : list (Z * Z)) : relation Z := clos_trans Z (link E).

(** The entries of [m] are the reflexive transitive closure of the links
    [E]: entry (i, j) is set exactly when [j] reaches [i]. *)
Definition tracks (m : matrix) (E : list (Z * Z)) : Prop :=
  forall i j, node i -> node j ->
    (entry m i j = true <-> clos_refl_trans Z (link E) j i).

(** The answer of [is_ancestor(i, j)] at the end of a session, if the
    session and the query are defined. *)
Definition answer (calls : list (Z * Z)) (i j : Z) : option Z :=
  match session calls with
  | Ok (_, m) =>
      match is_ancestor i j m with
      | Ok (b, _) => Some b
      | Undefined _ => None
      end
  | Undefined _ => None
  end.

(** A call whose two arguments are not negative. *)
Definition not_negative (c : Z * Z) : Prop := 0 <= c.1 /\ 0 <= c.2.

(** The calls [insert_link(1,2)], [insert_link(2,3)], ..., [insert_link(k-1,k)]. *)
Definition chain (k : Z) : list (Z * Z) :=
  (fun i => (i, i + 1)) <$> seqZ 1 (k - 1).

End Views.

(** ** The invariant of a session *)

Section Invariant.
Context {B : Build}.

(** What holds of the matrix [m] and the accepted links [E] at every point
    of a session: the matrix has its dimensions and its fields are [FIELD]
    values, its entries are the closure of the links, no node reaches
    itself through the links, and the links join nodes. *)
Definition sound (m : matrix) (E : list (Z * Z)) : Prop :=
  shaped m /\ ranged m /\ tracks m E /\
  (forall x, ~ path E x x) /\
  Forall (fun c : Z * Z => node c.1 /\ node c.2) E.

(** Whether a run has a defined result. *)
Definition defined {A} (r : result A) : bool :=
  match r with Ok _ => true | Undefined _ => false end.

(** The matrix with which [main] enters its loop: the zeroed matrix after
    [initialize_ancestors]. *)
Definition fresh : matrix :=
  match initialize_ancestors zeroed with
  | Ok (_, m) => m
  | Undefined _ => zeroed
  end.

End Invariant.

(** ** Terminal output

    The texts written by the [printf] calls of the program, one list
    element per call, in the order of the calls.  A run that becomes
    undefined keeps what was written before. *)

Definition IO (A : Type) : Type := matrix -> list string * result (A * matrix).

Definition io_ret {A} (a : A) : IO A := fun m => ([], Ok (a, m)).

Definition io_bind {A C} (c : IO A) (k : A -> IO C) : IO C :=
  fun m => match c m with
           | (out, Ok (a, m')) => let (out', r) := k a m' in (out ++ out', r)
           | (out, Undefined f) => (out, Undefined f)
           end.

(** One [printf] call that writes [text]. *)
Definition printf (text : string) : IO unit := fun m => ([text], Ok (tt, m)).

(** A computation that writes nothing. *)
Definition quiet {A} (c : M A) : IO A := fun m => ([], c m).

Notation "x <~ c ;; k" := (io_bind c (fun x => k))
  (at level 100, c at next level, right associativity).
Notation "c ~;; k" := (io_bind c (fun _ => k))
  (at level 100, right associativity).

Fixpoint io_for_each {X} (xs : list X) (body : X -> IO unit) : IO unit :=
  match xs with
  | [] => io_ret tt
  | x :: xs' => body x ~;; io_for_each xs' body
  end.

(** The newline character, and the conversions [%d] and [%x] of an [int]. *)
Definition nl : string := String (Ascii.ascii_of_N 10) EmptyString.
Definition fmt_d (z : Z) : string :=
  DecimalString.NilZero.string_of_int (Z.to_int z).
Definition fmt_x (z : Z) : string :=
  HexadecimalString.NilZero.string_of_uint
    (N.to_hex_uint (Z.to_N (to_unsigned INT_BITS z))).

Section Output.
Context {B : Build}.

(** [insert_link] with the texts it writes. *)
Definition insert_link_printing (start_node end_node : Z) : IO Z :=
  if start_node >=? TOTAL_NODES then
    printf "input ignored: " ~;;
    printf ("start (= " +:+ fmt_d start_node +:+
            ") must be less than TOTAL_NODES (= " +:+ fmt_d TOTAL_NODES +:+
            ")" +:+ nl) ~;;
    io_ret BAD_DATA
  else if end_node >=? TOTAL_NODES then
    printf "input ignored: " ~;;
    printf ("end (= " +:+ fmt_d end_node +:+
            ") must be less than TOTAL_NODES (= " +:+ fmt_d TOTAL_NODES +:+
            ")" +:+ nl) ~;;
    io_ret BAD_DATA
  else if start_node =? end_node then
    printf "input ignored: " ~;;
    printf ("start and end are identical (= " +:+ fmt_d end_node +:+
            ")" +:+ nl) ~;;
    io_ret FAIL
  else
    t <~ quiet (is_ancestor start_node end_node) ;;
    if truthy t then io_ret FAIL
    else quiet (insert_ancestors start_node end_node) ~;; io_ret PASS.

(** One turn of the loop of [main], for the two integers that [scanf]
    has stored in [start_node] and [end_node]. *)
Definition main_turn (request : Z * Z) : IO unit :=
  let (start_node, end_node) := request in
  printf "Enter start end:  " ~;;
  result <~ insert_link_printing start_node end_node ;;
  (if result =? FAIL then printf ("Cycle found" +:+ nl) else io_ret tt) ~;;
  (if result =? PASS then printf ("Good insert" +:+ nl) else io_ret tt) ~;;
  (if result =? BAD_DATA then printf ("Bad (out of bounds) data" +:+ nl)
   else io_ret tt).

(** [main], for the turns of its endless loop in which [scanf] converts
    the two integers of [input], one pair per turn. *)
Definition main (input : list (Z * Z)) : IO unit :=
  quiet initialize_ancestors ~;;
  io_for_each input main_turn.

(** [print_corner] of [debug.h]; its texts go to [stderr]. *)
Definition print_corner : IO unit :=
  let size := 6 in
  let i_start := 0 in
  let i_end := i_start + size in
  let j_start := 0 in
  let j_end := j_start + size in
  io_for_each (seqZ i_start (i_end - i_start)) (fun i =>
    io_for_each (seqZ j_start (j_end - j_start)) (fun j =>
      v <~ quiet (is_ancestor i j) ;;
      printf (fmt_x v +:+ " ")) ~;;
    printf nl) ~;;
  printf nl.

(** What [insert_link(s, t)] writes; the matrix has no part in it. *)
Definition said (s t : Z) : list string := (insert_link_printing s t []).1.

(** The line [main] writes for a result of [insert_link]. *)
Definition verdict_line (r : Z) : string :=
  if r =? PASS then "Good insert" +:+ nl
  else if r =? FAIL then "Cycle found" +:+ nl
  else "Bad (out of bounds) data" +:+ nl.

(** The texts of a run of [main]: per request the prompt, what
    [insert_link] writes, and one line for its result. *)
Fixpoint transcript (input : list (Z * Z)) (rs : list Z) : list string :=
  match input, rs with
  | (s, t) :: input', r :: rs' =>
      "Enter start end:  " :: said s t ++ verdict_line r :: transcript input' rs'
  | _, _ => []
  end.

(** The corner of the matrix as [print_corner] shows it. *)
Definition cell (m : matrix) (i j : Z) : string :=
  if entry m i j then "1 " else "0 ".
Definition corner (m : matrix) : list string :=
  flat_map (fun i => (cell m i <$> seqZ 0 6) ++ [nl]) (seqZ 0 6) ++ [nl].

End Output.

(** Case analysis on every comparison of the goal. *)
Ltac compare_all :=
  repeat match goal with
         | |- context [?a =? ?b] => destruct (Z.eqb_spec a b)
         | |- context [?a <=? ?b] => destruct (Z.leb_spec a b)
         | |- context [?a <? ?b] => destruct (Z.ltb_spec a b)
         end;
  simpl; try reflexivity; try lia.

(** ** Scenarios on the reduced build *)

Example direct_cycle :
  fst <$> (match @session small [(1, 2); (2, 3); (3, 1)] with
           | Ok x => Some x | Undefined _ => None end)
  = Some [PASS; PASS; FAIL].
Proof. vm_compute. reflexivity. Qed.

Example after_two_links :
  @answer small [(1, 2); (2, 3)] 3 2 = Some TRUE /\
  @answer small [(1, 2); (2, 3)] 3 1 = Some TRUE /\
  @answer small [(1, 2); (2, 3)] 1 3 = Some FALSE /\
  @answer small [(1, 2); (2, 3)] 63 63 = Some TRUE.
Proof. vm_compute. repeat split. Qed.

Example shift_into_sign : shl_int 1 31 = Ok INT_MIN.
Proof. reflexivity. Qed.

Example shift_by_width : shl_int 1 32 = Undefined ShiftTooWide.
Proof. reflexivity. Qed.

Example shortcut_accepted :
  fst <$> (match @session small [(1, 2); (2, 3); (1, 3); (3, 3); (64, 0); (1, 2)] with
           | Ok x => Some x | Undefined _ => None end)
  = Some [PASS; PASS; PASS; FAIL; BAD_DATA; PASS].
Proof. vm_compute. reflexivity. Qed.

(** ** Arithmetic of the bit layout *)

Lemma land_pow2 (w b : Z) :
  0 <= b -> Z.land w (2 ^ b) = if Z.testbit w b then 2 ^ b else 0.
Proof.
  intros Hb. apply Z.bits_inj'. intros n Hn.
  rewrite Z.land_spec, Z.pow2_bits_eqb by lia.
  destruct (Z.eqb_spec b n) as [->|Hne].
  - destruct (Z.testbit w n); simpl.
    + rewrite Z.pow2_bits_eqb by lia. now rewrite Z.eqb_refl.
    + now rewrite Z.bits_0.
  - rewrite andb_false_r. destruct (Z.testbit w b).
    + rewrite Z.pow2_bits_eqb by lia. symmetry. now apply Z.eqb_neq.
    + now rewrite Z.bits_0.
Qed.

Lemma truthy_land_pow2 (w b : Z) :
  0 <= b -> truthy (Z.land w (2 ^ b)) = Z.testbit w b.
Proof.
  intros Hb. rewrite land_pow2 by assumption. unfold truthy.
  destruct (Z.testbit w b); [|reflexivity].
  assert (0 < 2 ^ b) by (apply Z.pow_pos_nonneg; lia).
  apply negb_true_iff, Z.eqb_neq. lia.
Qed.

Lemma testbit_lor_pow2 (w b n : Z) :
  0 <= b -> 0 <= n ->
  Z.testbit (Z.lor w (2 ^ b)) n = Z.testbit w n || (n =? b).
Proof.
  intros Hb Hn. rewrite Z.lor_spec, Z.pow2_bits_eqb by lia.
  now rewrite (Z.eqb_sym b n).
Qed.

(** [1 << b], converted to [FIELD], is the single bit [b] whenever [b] is
    a bit position of a [FIELD] that is no wider than [int]. *)
Lemma shl_one `{Build} (b : Z) :
  FIELD_SIZE <= INT_BITS -> 0 <= b < FIELD_SIZE ->
  exists v, shl_int 1 b = Ok v /\ to_FIELD v = 2 ^ b.
Proof.
  intros Hw Hb. unfold shl_int, INT_BITS in *.
  assert (Hc : (0 <=? b) && (b <? 32) = true) by lia.
  rewrite Hc. eexists; split; [reflexivity|].
  rewrite Z.shiftl_1_l. unfold to_FIELD, to_unsigned, to_int.
  assert (Hpos : 0 < 2 ^ b) by (apply Z.pow_pos_nonneg; lia).
  assert (Hlt : 2 ^ b < 2 ^ FIELD_SIZE) by (apply Z.pow_lt_mono_r; lia).
  assert (Hle : 2 ^ FIELD_SIZE <= 2 ^ 32) by (apply Z.pow_le_mono_r; lia).
  destruct (Z.eq_dec b 31) as [->|Hne].
  - assert (FIELD_SIZE = 32) as -> by lia. reflexivity.
  - assert (2 ^ b < 2 ^ 31) by (apply Z.pow_lt_mono_r; lia).
    change (2 ^ 31) with 2147483648 in *. change (2 ^ 32) with 4294967296 in *.
    rewrite (Z.mod_small (2 ^ b + 2147483648)) by lia.
    replace (2 ^ b + 2147483648 - 2147483648) with (2 ^ b) by lia.
    apply Z.mod_small. lia.
Qed.

Section Layout.
Context {B : Build}.
Hypothesis sized : well_sized.

Lemma FIELD_SIZE_pos : 0 < FIELD_SIZE.
Proof. unfold well_sized, FIELD_SIZE in *. lia. Qed.

Lemma FIELD_SIZE_le : FIELD_SIZE <= INT_BITS.
Proof. apply sized. Qed.

Lemma TOTAL_NODES_split : TOTAL_NODES = FIELD_SIZE * FIELDS_PER_NODE.
Proof.
  unfold FIELDS_PER_NODE. apply Z_div_exact_full_2.
  - pose proof FIELD_SIZE_pos. lia.
  - apply sized.
Qed.

Lemma TOTAL_NODES_int : 0 < TOTAL_NODES <= INT_MAX.
Proof. apply sized. Qed.

Lemma FIELDS_PER_NODE_nonneg : 0 <= FIELDS_PER_NODE.
Proof.
  pose proof FIELD_SIZE_pos. pose proof TOTAL_NODES_int.
  unfold FIELDS_PER_NODE. apply Z.div_pos; lia.
Qed.

Lemma to_size_t_node (j : Z) : node j -> to_size_t j = j.
Proof.
  intros [H0 H1]. unfold to_size_t, to_unsigned. apply Z.mod_small.
  pose proof TOTAL_NODES_int as [_ HN]. unfold INT_MAX in HN.
  assert (2 ^ 32 <= 2 ^ SIZE_BITS).
  { apply Z.pow_le_mono_r; [lia|]. destruct sized as (_ & _ & Hs & _).
    exact Hs. }
  change (2 ^ 31) with 2147483648 in *. change (2 ^ 32) with 4294967296 in *.
  lia.
Qed.

Lemma to_int_small (z : Z) : 0 <= z <= INT_MAX -> to_int z = z.
Proof.
  unfold INT_MAX, to_int. intros Hz.
  change (2 ^ 31) with 2147483648 in *. change (2 ^ 32) with 4294967296 in *.
  rewrite Z.mod_small by lia. lia.
Qed.

Lemma chunk_of_node (j : Z) :
  node j ->
  target_chunk j = j / FIELD_SIZE /\ 0 <= j / FIELD_SIZE < FIELDS_PER_NODE.
Proof.
  intros Hj. pose proof FIELD_SIZE_pos. pose proof TOTAL_NODES_int.
  pose proof TOTAL_NODES_split. unfold node in Hj.
  assert (0 <= j / FIELD_SIZE) by (apply Z.div_pos; lia).
  assert (j / FIELD_SIZE <= j) by (apply Z.div_le_upper_bound; nia).
  split.
  - unfold target_chunk. rewrite to_size_t_node by assumption.
    apply to_int_small. lia.
  - split; [assumption|]. apply Z.div_lt_upper_bound; lia.
Qed.

Lemma bit_of_node (j : Z) :
  node j ->
  target_bit j = j mod FIELD_SIZE /\ 0 <= j mod FIELD_SIZE < FIELD_SIZE.
Proof.
  intros Hj. pose proof FIELD_SIZE_pos. pose proof FIELD_SIZE_le.
  assert (0 <= j mod FIELD_SIZE < FIELD_SIZE) by (apply Z.mod_pos_bound; lia).
  split; [|assumption].
  unfold target_bit. rewrite to_size_t_node by assumption.
  apply to_int_small. unfold INT_MAX, INT_BITS in *.
  change (2 ^ 31) with 2147483648. lia.
Qed.

(** Two nodes with the same field and the same bit are the same node. *)
Lemma same_position (j j' : Z) :
  j / FIELD_SIZE = j' / FIELD_SIZE -> j mod FIELD_SIZE = j' mod FIELD_SIZE ->
  j = j'.
Proof.
  intros Hq Hr. pose proof FIELD_SIZE_pos.
  rewrite (Z.div_mod j FIELD_SIZE), (Z.div_mod j' FIELD_SIZE) by lia.
  now rewrite Hq, Hr.
Qed.

End Layout.

(** ** The array *)

Lemma index_inside {A} (l : list A) (i : Z) :
  0 <= i < Z.of_nat (length l) -> exists x, index l i = Some x.
Proof.
  intros Hi. unfold index.
  destruct (Z.leb_spec 0 i); [|lia].
  apply lookup_lt_is_Some. lia.
Qed.

Lemma index_outside {A} (l : list A) (i : Z) :
  i < 0 \/ Z.of_nat (length l) <= i -> index l i = None.
Proof.
  intros Hi. unfold index.
  destruct (Z.leb_spec 0 i); [|reflexivity].
  apply lookup_ge_None. lia.
Qed.

Lemma index_insert {A} (l : list A) (i j : Z) (x : A) :
  0 <= i < Z.of_nat (length l) -> 0 <= j ->
  index (<[Z.to_nat i := x]> l) j = if j =? i then Some x else index l j.
Proof.
  intros Hi Hj. unfold index.
  destruct (Z.leb_spec 0 j); [|lia].
  destruct (Z.eqb_spec j i) as [->|Hne].
  - apply list_lookup_insert_eq. lia.
  - apply list_lookup_insert_ne. lia.
Qed.

Section Array.
Context {B : Build}.
Hypothesis sized : well_sized.

Lemma index_row (m : matrix) (k : Z) :
  shaped m -> node k -> index m k = Some (row m k).
Proof.
  intros [Hlen _] Hk. pose proof TOTAL_NODES_int sized. unfold node in Hk.
  destruct (index_inside m k) as [r Hr]; [lia|].
  unfold row. now rewrite Hr.
Qed.

Lemma row_length (m : matrix) (k : Z) :
  shaped m -> node k -> length (row m k) = Z.to_nat FIELDS_PER_NODE.
Proof.
  intros Hm Hk. pose proof (index_row m k Hm Hk) as Hr.
  destruct Hm as [_ Hrows]. unfold index in Hr.
  destruct (0 <=? k); [|discriminate].
  rewrite Forall_lookup in Hrows. exact (Hrows _ _ Hr).
Qed.

Lemma index_field (r : list Z) (c : Z) :
  0 <= c < Z.of_nat (length r) -> index r c = Some (field r c).
Proof.
  intros Hc. destruct (index_inside r c Hc) as [w Hw].
  unfold field. now rewrite Hw.
Qed.

Lemma load_spec (m : matrix) (r c : Z) :
  shaped m -> node r -> 0 <= c < FIELDS_PER_NODE ->
  load r c m = Ok (field (row m r) c, m).
Proof.
  intros Hm Hr Hc. unfold load.
  rewrite (index_row m r Hm Hr).
  rewrite index_field; [reflexivity|].
  rewrite (row_length m r Hm Hr). lia.
Qed.

Lemma store_spec (m : matrix) (r c w : Z) :
  shaped m -> node r -> 0 <= c < FIELDS_PER_NODE ->
  store r c w m = Ok (tt, set_row m r (<[Z.to_nat c := w]> (row m r))).
Proof.
  intros Hm Hr Hc. unfold store.
  rewrite (index_row m r Hm Hr).
  rewrite index_field; [reflexivity|].
  rewrite (row_length m r Hm Hr). lia.
Qed.

Lemma shaped_set_row (m : matrix) (k : Z) (r : list Z) :
  shaped m -> length r = Z.to_nat FIELDS_PER_NODE -> shaped (set_row m k r).
Proof.
  intros [Hlen Hrows] Hr. split.
  - unfold set_row. now rewrite length_insert.
  - unfold set_row. apply Forall_insert; assumption.
Qed.

Lemma row_set_row (m : matrix) (k k' : Z) (r : list Z) :
  shaped m -> node k -> node k' ->
  row (set_row m k r) k' = if k' =? k then r else row m k'.
Proof.
  intros [Hlen _] Hk Hk'. unfold row, set_row. unfold node in *.
  rewrite index_insert by lia.
  now destruct (k' =? k).
Qed.

Lemma set_row_same (m : matrix) (k : Z) :
  shaped m -> node k -> set_row m k (row m k) = m.
Proof.
  intros Hm Hk. unfold set_row. apply list_insert_id.
  pose proof (index_row m k Hm Hk) as Hr. unfold index in Hr.
  unfold node in Hk. destruct (Z.leb_spec 0 k); [assumption|lia].
Qed.

Lemma set_row_twice (m : matrix) (k : Z) (r r' : list Z) :
  set_row (set_row m k r) k r' = set_row m k r'.
Proof. unfold set_row. apply list_insert_insert_eq. Qed.

(** Two matrices of the declared dimensions with the same rows are equal. *)
Lemma shaped_rows_eq (m1 m2 : matrix) :
  shaped m1 -> shaped m2 ->
  (forall k, node k -> row m1 k = row m2 k) -> m1 = m2.
Proof.
  intros Hm1 Hm2 Hrows. apply list_eq. intros i.
  destruct (decide (i < length m1)%nat) as [Hi|Hi].
  - assert (Hk : node (Z.of_nat i)).
    { destruct Hm1 as [Hlen _]. unfold node. lia. }
    pose proof (index_row m1 _ Hm1 Hk) as H1.
    pose proof (index_row m2 _ Hm2 Hk) as H2.
    unfold index in H1, H2.
    destruct (0 <=? Z.of_nat i); [|discriminate].
    rewrite Nat2Z.id in H1, H2. rewrite H1, H2. f_equal. now apply Hrows.
  - rewrite !lookup_ge_None_2; [reflexivity| |lia].
    destruct Hm1 as [H1 _], Hm2 as [H2 _]. lia.
Qed.

Lemma shaped_zeroed : shaped zeroed.
Proof.
  unfold zeroed. split.
  - apply length_replicate.
  - apply Forall_replicate. apply length_replicate.
Qed.

End Array.

(** ** Rows as bit sets *)

Lemma field_insert (r : list Z) (c c' w : Z) :
  0 <= c < Z.of_nat (length r) -> 0 <= c' ->
  field (<[Z.to_nat c := w]> r) c' = if c' =? c then w else field r c'.
Proof.
  intros Hc Hc'. unfold field. rewrite index_insert by assumption.
  now destruct (c' =? c).
Qed.

Lemma field_union (r1 r2 : list Z) (c : Z) :
  length r1 = length r2 -> 0 <= c < Z.of_nat (length r1) ->
  field (row_union r1 r2) c = Z.lor (field r1 c) (field r2 c).
Proof.
  intros Hlen Hc. unfold field, row_union, index.
  destruct (Z.leb_spec 0 c); [|lia].
  rewrite lookup_zip_with.
  destruct (lookup_lt_is_Some_2 r1 (Z.to_nat c)) as [x ->]; [lia|].
  destruct (lookup_lt_is_Some_2 r2 (Z.to_nat c)) as [y ->]; [lia|].
  reflexivity.
Qed.

Lemma row_union_diag (r : list Z) : row_union r r = r.
Proof.
  unfold row_union. induction r as [|w r IH]; simpl; [reflexivity|].
  now rewrite Z.lor_diag, IH.
Qed.

Lemma row_union_length (r1 r2 : list Z) :
  length r1 = length r2 -> length (row_union r1 r2) = length r1.
Proof. intros H. unfold row_union. apply length_zip_with_l_eq. exact H. Qed.

Lemma row_union_assoc_same (r1 r2 : list Z) :
  row_union (row_union r1 r2) r2 = row_union r1 r2.
Proof.
  unfold row_union. revert r2.
  induction r1 as [|a r1 IH]; intros [|b r2]; simpl; try reflexivity.
  rewrite <- Z.lor_assoc, Z.lor_diag. now rewrite IH.
Qed.

Section Rows.
Context {B : Build}.
Hypothesis sized : well_sized.

Lemma row_bit_union (r1 r2 : list Z) (j : Z) :
  length r1 = Z.to_nat FIELDS_PER_NODE ->
  length r2 = Z.to_nat FIELDS_PER_NODE -> node j ->
  row_bit (row_union r1 r2) j = row_bit r1 j || row_bit r2 j.
Proof.
  intros H1 H2 Hj. unfold row_bit.
  destruct (chunk_of_node sized j Hj) as [_ Hc].
  rewrite field_union by lia.
  apply Z.lor_spec.
Qed.

Lemma with_bit_length (r : list Z) (j : Z) :
  length (with_bit r j) = length r.
Proof. unfold with_bit. apply length_insert. Qed.

Lemma row_bit_with_bit (r : list Z) (j j' : Z) :
  length r = Z.to_nat FIELDS_PER_NODE -> node j -> node j' ->
  row_bit (with_bit r j) j' = row_bit r j' || (j' =? j).
Proof.
  intros Hr Hj Hj'. unfold row_bit, with_bit.
  destruct (chunk_of_node sized j Hj) as [_ Hc].
  destruct (chunk_of_node sized j' Hj') as [_ Hc'].
  destruct (bit_of_node sized j Hj) as [_ Hb].
  destruct (bit_of_node sized j' Hj') as [_ Hb'].
  rewrite field_insert by lia.
  destruct (Z.eqb_spec (j' / FIELD_SIZE) (j / FIELD_SIZE)) as [Hq|Hq].
  - rewrite testbit_lor_pow2 by lia. rewrite Hq. f_equal.
    destruct (Z.eqb_spec (j' mod FIELD_SIZE) (j mod FIELD_SIZE)) as [Hm|Hm].
    + symmetry. apply Z.eqb_eq. now apply (same_position sized).
    + symmetry. apply Z.eqb_neq. intros ->. now apply Hm.
  - destruct (Z.eqb_spec j' j) as [->|_]; [now destruct Hq|].
    now rewrite orb_false_r.
Qed.

(** [is_ancestor] reads the entry and leaves the matrix alone. *)
Lemma is_ancestor_spec (m : matrix) (i j : Z) :
  shaped m -> node i -> node j ->
  is_ancestor i j m = Ok (if entry m i j then TRUE else FALSE, m).
Proof.
  intros Hm Hi Hj. unfold is_ancestor.
  destruct (chunk_of_node sized j Hj) as [-> Hc].
  destruct (bit_of_node sized j Hj) as [-> Hb].
  destruct (shl_one (j mod FIELD_SIZE) (FIELD_SIZE_le sized) Hb)
    as (v & -> & Hv).
  unfold bind at 1, lift. unfold bind.
  rewrite (load_spec sized m i _ Hm Hi Hc), Hv.
  rewrite truthy_land_pow2 by lia.
  unfold entry, row_bit. now destruct (Z.testbit _ _).
Qed.

(** [set_ancestor] sets the bit of the ancestor in the row of the
    descendant. *)
Lemma set_ancestor_spec (m : matrix) (d a : Z) :
  shaped m -> node d -> node a ->
  set_ancestor d a m = Ok (tt, set_row m d (with_bit (row m d) a)).
Proof.
  intros Hm Hd Ha. unfold set_ancestor.
  destruct (chunk_of_node sized a Ha) as [-> Hc].
  destruct (bit_of_node sized a Ha) as [-> Hb].
  destruct (shl_one (a mod FIELD_SIZE) (FIELD_SIZE_le sized) Hb)
    as (v & -> & Hv).
  unfold bind at 1, lift. unfold bind.
  rewrite (load_spec sized m d _ Hm Hd Hc), Hv.
  now rewrite (store_spec sized m d _ _ Hm Hd Hc).
Qed.

End Rows.

(** ** The loops *)

Lemma bind_ok {A C} (c : M A) (k : A -> M C) (m m' : matrix) (a : A) :
  c m = Ok (a, m') -> bind c k m = k a m'.
Proof. intros H. unfold bind. now rewrite H. Qed.

Section Loops.
Context {B : Build}.
Hypothesis sized : well_sized.

(** The inner loop, from field [f] on: the fields before [f] are as they
    are, the others are united with those of row [s]. *)
Lemma or_row_from (s k : Z) (d : nat) :
  node s -> node k ->
  forall (f : Z) (m : matrix),
    shaped m -> 0 <= f -> f + Z.of_nat d = FIELDS_PER_NODE ->
    for_each (seqZ f (Z.of_nat d)) (fun n_field =>
      a <- load k n_field ;;
      b <- load s n_field ;;
      store k n_field (Z.lor a b)) m
    = Ok (tt, set_row m k
                (take (Z.to_nat f) (row m k) ++
                 row_union (drop (Z.to_nat f) (row m k))
                           (drop (Z.to_nat f) (row m s)))).
Proof.
  intros Hs Hk. induction d as [|d IH]; intros f m Hm Hf Hd.
  - rewrite seqZ_nil by lia. simpl. unfold ret. do 2 f_equal.
    pose proof (row_length sized m k Hm Hk) as Lk.
    rewrite (drop_ge (row m k)) by lia.
    rewrite take_ge by lia. unfold row_union. simpl. rewrite app_nil_r.
    symmetry. now apply (set_row_same sized).
  - rewrite seqZ_cons by lia. cbn [for_each].
    pose proof (row_length sized m k Hm Hk) as Lk.
    pose proof (row_length sized m s Hm Hs) as Ls.
    assert (Hc : 0 <= f < FIELDS_PER_NODE) by lia.
    rewrite (bind_ok _ _ m
               (set_row m k (<[Z.to_nat f :=
                  Z.lor (field (row m k) f) (field (row m s) f)]> (row m k)))
               tt).
    2:{ rewrite (bind_ok _ _ _ _ _ (load_spec sized m k f Hm Hk Hc)).
        rewrite (bind_ok _ _ _ _ _ (load_spec sized m s f Hm Hs Hc)).
        apply (store_spec sized); assumption. }
    set (x := Z.lor (field (row m k) f) (field (row m s) f)).
    set (m2 := set_row m k (<[Z.to_nat f := x]> (row m k))).
    assert (Hm2 : shaped m2).
    { apply shaped_set_row; [assumption|]. now rewrite length_insert. }
    replace (Z.pred (Z.of_nat (S d))) with (Z.of_nat d) by lia.
    rewrite (IH (Z.succ f) m2 Hm2) by lia.
    unfold m2 at 1. rewrite set_row_twice. do 2 f_equal.
    assert (Rk : row m2 k = <[Z.to_nat f := x]> (row m k)).
    { unfold m2. rewrite row_set_row by assumption.
      now rewrite Z.eqb_refl. }
    assert (Rs : drop (Z.to_nat (Z.succ f)) (row m2 s)
                 = drop (Z.to_nat (Z.succ f)) (row m s)).
    { unfold m2. rewrite row_set_row by assumption.
      destruct (Z.eqb_spec s k) as [->|_]; [|reflexivity].
      apply drop_insert_lt. lia. }
    rewrite Rk, Rs. rewrite Z2Nat.inj_succ by lia.
    destruct (lookup_lt_is_Some_2 (row m k) (Z.to_nat f)) as [a Ha]; [lia|].
    destruct (lookup_lt_is_Some_2 (row m s) (Z.to_nat f)) as [b Hb]; [lia|].
    rewrite (take_S_r _ _ x) by (apply list_lookup_insert_eq; lia).
    rewrite take_insert_ge by lia.
    rewrite drop_insert_lt by lia.
    rewrite (drop_S (row m k) a (Z.to_nat f) Ha).
    rewrite (drop_S (row m s) b (Z.to_nat f) Hb).
    unfold row_union at 2. cbn [zip_with]. rewrite <- app_assoc. simpl.
    do 2 f_equal. unfold x, field, index.
    destruct (Z.leb_spec 0 f); [|lia]. now rewrite Ha, Hb.
Qed.

Lemma or_row_spec (m : matrix) (s k : Z) :
  shaped m -> node s -> node k ->
  or_row s k m = Ok (tt, set_row m k (row_union (row m k) (row m s))).
Proof.
  intros Hm Hs Hk. unfold or_row.
  pose proof (FIELDS_PER_NODE_nonneg sized).
  rewrite <- (Z2Nat.id FIELDS_PER_NODE) at 1 by assumption.
  rewrite (or_row_from s k _ Hs Hk 0 m Hm) by lia.
  reflexivity.
Qed.

Lemma absorb_length (rs r : list Z) (t : Z) :
  length rs = length r -> length (absorb rs t r) = length r.
Proof.
  intros H. unfold absorb. destruct (row_bit r t); [|reflexivity].
  now apply row_union_length.
Qed.

Lemma absorb_self (r : list Z) (t : Z) : absorb r t r = r.
Proof. unfold absorb. destruct (row_bit r t); [apply row_union_diag|reflexivity]. Qed.

(** One turn of the outer loop. *)
Lemma insert_ancestors_step_spec (m : matrix) (s t k : Z) :
  shaped m -> node s -> node t -> node k ->
  insert_ancestors_step s t k m
  = Ok (tt, set_row m k (absorb (row m s) t (row m k))).
Proof.
  intros Hm Hs Ht Hk. unfold insert_ancestors_step.
  rewrite (bind_ok _ _ _ _ _ (is_ancestor_spec sized m k t Hm Hk Ht)).
  unfold absorb, entry. destruct (row_bit (row m k) t); cbn.
  - now apply or_row_spec.
  - unfold ret. now rewrite (set_row_same sized).
Qed.

(** The outer loop over any rows [ks] without repetition: the rows in
    [ks] have absorbed row [s], the others are untouched. *)
Lemma sweep (s t : Z) (rs : list Z) :
  node s -> node t -> length rs = Z.to_nat FIELDS_PER_NODE ->
  forall (ks : list Z) (m : matrix),
    shaped m -> Forall node ks -> NoDup ks -> row m s = rs ->
    exists m',
      insert_ancestors_in_order ks s t m = Ok (tt, m') /\ shaped m' /\
      forall k, node k ->
        row m' k = if decide (k ∈ ks) then absorb rs t (row m k) else row m k.
Proof.
  intros Hs Ht Lrs. induction ks as [|k ks IH]; intros m Hm Hks Hnd Hrs.
  - exists m. split; [reflexivity|]. split; [assumption|].
    intros k _. destruct (decide (k ∈ [])) as [Hin|_]; [|reflexivity].
    now apply elem_of_nil in Hin.
  - apply Forall_cons in Hks as [Hk Hks]. apply NoDup_cons in Hnd as [Hnk Hnd].
    set (m1 := set_row m k (absorb rs t (row m k))).
    assert (Lk : length (row m k) = Z.to_nat FIELDS_PER_NODE)
      by now apply (row_length sized).
    assert (Hm1 : shaped m1).
    { apply shaped_set_row; [assumption|]. rewrite absorb_length; lia. }
    assert (Hrs1 : row m1 s = rs).
    { unfold m1. rewrite row_set_row by assumption.
      destruct (Z.eqb_spec s k) as [->|_]; [|assumption].
      rewrite Hrs. apply absorb_self. }
    destruct (IH m1 Hm1 Hks Hnd Hrs1) as (m' & Hrun & Hm' & Hrows).
    exists m'. split; [|split; [assumption|]].
    + unfold insert_ancestors_in_order in *. cbn [for_each].
      rewrite (bind_ok _ _ m m1 tt); [assumption|].
      rewrite (insert_ancestors_step_spec m s t k Hm Hs Ht Hk).
      unfold m1. now rewrite Hrs.
    + intros k' Hk'. rewrite (Hrows k' Hk'). unfold m1.
      rewrite row_set_row by assumption.
      destruct (Z.eqb_spec k' k) as [->|Hne].
      * destruct (decide (k ∈ ks)) as [Hin|_]; [contradiction|].
        destruct (decide (k ∈ k :: ks)) as [_|Hout]; [reflexivity|].
        destruct Hout. apply elem_of_cons. now left.
      * destruct (decide (k' ∈ ks)) as [Hin|Hout];
          destruct (decide (k' ∈ k :: ks)) as [Hin'|Hout']; try reflexivity.
        -- destruct Hout'. apply elem_of_cons. now right.
        -- apply elem_of_cons in Hin' as [?|?]; contradiction.
Qed.

Lemma row_fmap (g : list Z -> list Z) (m : matrix) (k : Z) :
  shaped m -> node k -> row (g <$> m) k = g (row m k).
Proof.
  intros Hm Hk. pose proof (index_row sized m k Hm Hk) as Hr.
  unfold row at 1. unfold index in *. destruct (0 <=? k); [|discriminate].
  rewrite list_lookup_fmap, Hr. reflexivity.
Qed.

Lemma shaped_propagated (m : matrix) (s t : Z) :
  shaped m -> node s -> shaped (propagated s t m).
Proof.
  intros Hm Hs. pose proof (row_length sized m s Hm Hs) as Ls.
  destruct Hm as [Hlen Hrows]. split.
  - unfold propagated. now rewrite length_fmap.
  - unfold propagated. apply Forall_fmap. eapply Forall_impl; [exact Hrows|].
    intros r Hr. unfold compose. simpl in Hr. rewrite absorb_length; lia.
Qed.

(** [insert_ancestors], in whatever order the rows are visited. *)
Lemma insert_ancestors_in_order_spec (ks : list Z) (m : matrix) (s t : Z) :
  ks ≡ₚ seqZ 0 TOTAL_NODES -> shaped m -> node s -> node t ->
  insert_ancestors_in_order ks s t m = Ok (tt, propagated s t m).
Proof.
  intros Hp Hm Hs Ht.
  pose proof (row_length sized m s Hm Hs) as Ls.
  assert (Hall : forall k, node k <-> k ∈ ks).
  { intros k. rewrite Hp, elem_of_seqZ. unfold node. lia. }
  destruct (sweep s t (row m s) Hs Ht Ls ks m Hm) as (m' & Hrun & Hm' & Hrows).
  - apply Forall_forall. intros k Hk. now apply Hall.
  - rewrite Hp. apply NoDup_seqZ.
  - reflexivity.
  - rewrite Hrun. do 2 f_equal.
    apply (shaped_rows_eq sized); [assumption|now apply shaped_propagated|].
    intros k Hk. rewrite (Hrows k Hk). unfold propagated.
    rewrite row_fmap by assumption.
    destruct (decide (k ∈ ks)) as [_|Hout]; [reflexivity|].
    destruct Hout. now apply Hall.
Qed.

Lemma insert_ancestors_spec (m : matrix) (s t : Z) :
  shaped m -> node s -> node t ->
  insert_ancestors s t m = Ok (tt, propagated s t m).
Proof. intros. now apply insert_ancestors_in_order_spec. Qed.

End Loops.

(** ** Entries of the matrix *)

Section Entries.
Context {B : Build}.
Hypothesis sized : well_sized.

Lemma entry_zeroed (i j : Z) : node i -> node j -> entry zeroed i j = false.
Proof.
  intros Hi Hj. unfold entry, row_bit.
  destruct (chunk_of_node sized j Hj) as [_ Hc].
  assert (Hf : field (row zeroed i) (j / FIELD_SIZE) = 0).
  { unfold field, index. destruct (0 <=? j / FIELD_SIZE); [|reflexivity].
    destruct (row zeroed i !! Z.to_nat (j / FIELD_SIZE)) as [w|] eqn:Hw;
      [|reflexivity].
    apply list_elem_of_lookup_2 in Hw.
    unfold row, index, zeroed in Hw. destruct (0 <=? i).
    - destruct (replicate _ _ !! Z.to_nat i) as [r|] eqn:Hr; simpl in Hw.
      + apply lookup_replicate in Hr as [-> _].
        now apply elem_of_replicate in Hw as [-> _].
      + now apply elem_of_nil in Hw.
    - now apply elem_of_nil in Hw. }
  rewrite Hf. apply Z.bits_0.
Qed.

Lemma entry_set_row (m : matrix) (k i j : Z) (r : list Z) :
  shaped m -> node k -> node i ->
  entry (set_row m k r) i j = if i =? k then row_bit r j else entry m i j.
Proof.
  intros Hm Hk Hi. unfold entry. rewrite row_set_row by assumption.
  now destruct (i =? k).
Qed.

Lemma entry_propagated (m : matrix) (s t k a : Z) :
  shaped m -> node s -> node t -> node k -> node a ->
  entry (propagated s t m) k a
  = entry m k a || (entry m k t && entry m s a).
Proof.
  intros Hm Hs Ht Hk Ha. unfold entry, propagated.
  rewrite (row_fmap sized) by assumption. unfold absorb.
  destruct (row_bit (row m k) t); simpl.
  - apply (row_bit_union sized); [| |assumption];
      now apply (row_length sized).
  - now rewrite orb_false_r.
Qed.

(** The effect of [set_ancestor] on the entries. *)
Lemma set_ancestor_entries (m : matrix) (d a : Z) :
  shaped m -> node d -> node a ->
  exists m',
    set_ancestor d a m = Ok (tt, m') /\ shaped m' /\
    forall i j, node i -> node j ->
      entry m' i j = entry m i j || ((i =? d) && (j =? a)).
Proof.
  intros Hm Hd Ha. pose proof (row_length sized m d Hm Hd) as Ld.
  eexists. split; [now apply (set_ancestor_spec sized)|]. split.
  - apply shaped_set_row; [assumption|]. now rewrite with_bit_length.
  - intros i j Hi Hj. rewrite entry_set_row by assumption.
    destruct (Z.eqb_spec i d) as [->|_]; simpl.
    + now apply (row_bit_with_bit sized).
    + now rewrite orb_false_r.
Qed.

(** The loop of [initialize_ancestors], over any nodes [ks]. *)
Lemma set_diagonal (ks : list Z) :
  Forall node ks ->
  forall m : matrix, shaped m ->
    exists m',
      for_each ks (fun i => set_ancestor i i) m = Ok (tt, m') /\ shaped m' /\
      forall i j, node i -> node j ->
        entry m' i j = entry m i j || ((i =? j) && bool_decide (i ∈ ks)).
Proof.
  induction ks as [|k ks IH]; intros Hks m Hm.
  - exists m. split; [reflexivity|]. split; [assumption|].
    intros i j _ _. rewrite bool_decide_eq_false_2 by apply not_elem_of_nil.
    now rewrite andb_false_r, orb_false_r.
  - apply Forall_cons in Hks as [Hk Hks].
    destruct (set_ancestor_entries m k k Hm Hk Hk) as (m1 & Hset & Hm1 & He1).
    destruct (IH Hks m1 Hm1) as (m' & Hrun & Hm' & He').
    exists m'. split; [|split; [assumption|]].
    + cbn [for_each]. now rewrite (bind_ok _ _ _ _ _ Hset).
    + intros i j Hi Hj. rewrite (He' i j Hi Hj), (He1 i j Hi Hj).
      rewrite <- orb_assoc. f_equal.
      destruct (Z.eqb_spec i j) as [->|Hij]; simpl.
      * destruct (Z.eqb_spec j k) as [->|Hne]; simpl.
        -- symmetry. apply bool_decide_eq_true_2, elem_of_cons. now left.
        -- apply bool_decide_ext. rewrite elem_of_cons. tauto.
      * destruct (Z.eqb_spec i k), (Z.eqb_spec j k); simpl;
          try reflexivity. congruence.
Qed.

(** After [initialize_ancestors] on the zeroed matrix the entries are
    those of the identity. *)
Lemma initialize_ancestors_spec :
  exists m0,
    initialize_ancestors zeroed = Ok (tt, m0) /\ shaped m0 /\
    forall i j, node i -> node j -> entry m0 i j = (i =? j).
Proof.
  destruct (set_diagonal (seqZ 0 TOTAL_NODES)) with (m := zeroed)
    as (m0 & Hrun & Hm0 & He).
  - apply Forall_seqZ. unfold node. lia.
  - apply shaped_zeroed.
  - exists m0. split; [exact Hrun|]. split; [assumption|].
    intros i j Hi Hj. rewrite (He i j Hi Hj), entry_zeroed by assumption.
    simpl. rewrite bool_decide_eq_true_2; [apply andb_true_r|].
    apply elem_of_seqZ. unfold node in Hi. lia.
Qed.

(** [insert_link] on two nodes. *)
Lemma insert_link_spec (m : matrix) (s t : Z) :
  shaped m -> node s -> node t ->
  insert_link s t m =
    if (s =? t) || entry m s t then Ok (FAIL, m)
    else Ok (PASS, propagated s t m).
Proof.
  intros Hm Hs Ht. unfold insert_link, node in *.
  destruct (Z.geb_spec s TOTAL_NODES); [lia|].
  destruct (Z.geb_spec t TOTAL_NODES); [lia|].
  destruct (s =? t); [reflexivity|]. simpl.
  rewrite (bind_ok _ _ _ _ _ (is_ancestor_spec sized m s t Hm Hs Ht)).
  destruct (entry m s t); [reflexivity|]. cbn.
  now rewrite (bind_ok _ _ _ _ _ (insert_ancestors_spec sized m s t Hm Hs Ht)).
Qed.

(** [insert_link] on an identifier that is not below [TOTAL_NODES]: no
    array element is touched, whatever the matrix. *)
Lemma insert_link_too_large (m : matrix) (s t : Z) :
  TOTAL_NODES <= s \/ TOTAL_NODES <= t -> insert_link s t m = Ok (BAD_DATA, m).
Proof.
  intros H. unfold insert_link.
  destruct (Z.geb_spec s TOTAL_NODES); [reflexivity|].
  destruct (Z.geb_spec t TOTAL_NODES); [reflexivity|lia].
Qed.

(** [insert_link] on identifiers that are not negative: the call has a
    result, the matrix keeps its dimensions, and either nothing changes
    or the link is accepted and propagated. *)
Lemma insert_link_cases (m : matrix) (s t : Z) :
  shaped m -> 0 <= s -> 0 <= t ->
  exists r m',
    insert_link s t m = Ok (r, m') /\ shaped m' /\
    ((r <> PASS /\ m' = m) \/
     (r = PASS /\ node s /\ node t /\ entry m s t = false /\
      m' = propagated s t m)).
Proof.
  intros Hm Hs Ht.
  destruct (Z_lt_le_dec s TOTAL_NODES) as [Hs'|Hs'];
    [destruct (Z_lt_le_dec t TOTAL_NODES) as [Ht'|Ht']|].
  - assert (Ns : node s) by (unfold node; lia).
    assert (Nt : node t) by (unfold node; lia).
    rewrite (insert_link_spec m s t Hm Ns Nt).
    destruct ((s =? t) || entry m s t) eqn:Hc.
    + exists FAIL, m. split; [reflexivity|]. split; [assumption|].
      left. split; [discriminate|reflexivity].
    + apply orb_false_iff in Hc as [_ He].
      exists PASS, (propagated s t m). split; [reflexivity|].
      split; [now apply (shaped_propagated sized)|]. right. tauto.
  - exists BAD_DATA, m. rewrite insert_link_too_large by lia.
    split; [reflexivity|]. split; [assumption|].
    left. split; [discriminate|reflexivity].
  - exists BAD_DATA, m. rewrite insert_link_too_large by lia.
    split; [reflexivity|]. split; [assumption|].
    left. split; [discriminate|reflexivity].
Qed.

End Entries.

(** ** Closure under one more link *)

Section Closure.
Context {A : Type} (R : relation A) (s t : A).

Lemma clos_rt_mono (Q : relation A) (a b : A) :
  (forall x y, R x y -> Q x y) ->
  clos_refl_trans A R a b -> clos_refl_trans A Q a b.
Proof.
  intros HQ H. induction H as [x y Hxy|x|x y z _ IH1 _ IH2].
  - apply rt_step. now apply HQ.
  - apply rt_refl.
  - now apply rt_trans with y.
Qed.

Lemma clos_rt_add_link (a b : A) :
  clos_refl_trans A (fun x y => R x y \/ (x = s /\ y = t)) a b <->
  clos_refl_trans A R a b \/
  (clos_refl_trans A R a s /\ clos_refl_trans A R t b).
Proof.
  split.
  - intros H. induction H as [x y [Hxy|[-> ->]]|x|x y z _ IH1 _ IH2].
    + left. now apply rt_step.
    + right. split; apply rt_refl.
    + left. apply rt_refl.
    + destruct IH1 as [H1|[H1 H1']], IH2 as [H2|[H2 H2']].
      * left. now apply rt_trans with y.
      * right. split; [now apply rt_trans with y|assumption].
      * right. split; [assumption|now apply rt_trans with y].
      * right. split; assumption.
  - assert (Hinc : forall x y, clos_refl_trans A R x y ->
              clos_refl_trans A (fun x y => R x y \/ (x = s /\ y = t)) x y).
    { intros x y Hxy. eapply clos_rt_mono; [|exact Hxy].
      intros; now left. }
    intros [H|[H1 H2]]; [now apply Hinc|].
    apply rt_trans with s; [now apply Hinc|].
    apply rt_trans with t; [|now apply Hinc].
    apply rt_step. right. now split.
Qed.

Lemma clos_rt_eq_or_trans (a b : A) :
  clos_refl_trans A R a b <-> a = b \/ clos_trans A R a b.
Proof.
  split.
  - intros H. induction H as [x y Hxy|x|x y z _ IH1 _ IH2].
    + right. now apply t_step.
    + now left.
    + destruct IH1 as [->|H1]; [assumption|].
      destruct IH2 as [<-|H2]; right; [assumption|].
      now apply t_trans with y.
  - intros [->|H]; [apply rt_refl|].
    induction H as [x y Hxy|x y z _ IH1 _ IH2].
    + now apply rt_step.
    + now apply rt_trans with y.
Qed.

End Closure.

Lemma clos_rt_no_link (a b : Z) : clos_refl_trans Z (link []) a b <-> a = b.
Proof.
  split.
  - intros H. induction H as [x y []|x|x y z _ IH1 _ IH2]; congruence.
  - intros ->. apply rt_refl.
Qed.

(** ** Sessions *)

Section Sessions.
Context {B : Build}.
Hypothesis sized : well_sized.

Lemma is_ancestor_TRUE (m : matrix) (i j : Z) :
  shaped m -> node i -> node j ->
  (is_ancestor i j m = Ok (TRUE, m) <-> entry m i j = true).
Proof.
  intros Hm Hi Hj. rewrite (is_ancestor_spec sized m i j Hm Hi Hj).
  destruct (entry m i j); split; intros H; try reflexivity; discriminate.
Qed.

Lemma is_ancestor_FALSE (m : matrix) (i j : Z) :
  shaped m -> node i -> node j ->
  (is_ancestor i j m = Ok (FALSE, m) <-> entry m i j = false).
Proof.
  intros Hm Hi Hj. rewrite (is_ancestor_spec sized m i j Hm Hi Hj).
  destruct (entry m i j); split; intros H; try reflexivity; discriminate.
Qed.

Lemma tracks_same_links (m : matrix) (E E' : list (Z * Z)) :
  (forall e, In e E <-> In e E') -> tracks m E -> tracks m E'.
Proof.
  intros HE Hm i j Hi Hj. rewrite (Hm i j Hi Hj).
  split; apply clos_rt_mono; intros x y; unfold link; apply HE.
Qed.

Lemma tracks_propagated (m : matrix) (E : list (Z * Z)) (s t : Z) :
  shaped m -> node s -> node t -> tracks m E ->
  tracks (propagated s t m) ((s, t) :: E).
Proof.
  intros Hm Hs Ht Htr k a Hk Ha.
  rewrite (entry_propagated sized) by assumption.
  rewrite orb_true_iff, andb_true_iff.
  rewrite (Htr k a Hk Ha), (Htr k t Hk Ht), (Htr s a Hs Ha).
  rewrite (and_comm (clos_refl_trans Z (link E) t k)).
  rewrite <- (clos_rt_add_link (link E) s t a k).
  split; apply clos_rt_mono; intros x y; unfold link; simpl.
  - intros [H|[-> ->]]; [now right|now left].
  - intros [H|H]; [right; split; congruence|now left].
Qed.

(** Every call of a session on arguments that are not negative returns,
    and the entries stay the closure of the accepted links. *)
Lemma insert_links_tracks (calls : list (Z * Z)) :
  Forall not_negative calls ->
  forall (m : matrix) (E : list (Z * Z)),
    shaped m -> tracks m E ->
    exists rs m',
      insert_links calls m = Ok (rs, m') /\ shaped m' /\
      length rs = length calls /\ tracks m' (accepted calls rs ++ E).
Proof.
  induction calls as [|[s t] calls IH]; intros Hc m E Hm Htr.
  - exists [], m. split; [reflexivity|]. split; [assumption|].
    split; [reflexivity|exact Htr].
  - apply Forall_cons in Hc as [[Hs Ht] Hc]. simpl in Hs, Ht.
    destruct (insert_link_cases sized m s t Hm Hs Ht)
      as (r & m1 & Hrun & Hm1 & Hcase).
    assert (Htr1 : tracks m1 (if r =? PASS then (s, t) :: E else E)).
    { destruct Hcase as [[Hr ->]|(-> & Ns & Nt & _ & ->)].
      - now apply Z.eqb_neq in Hr as ->.
      - now apply tracks_propagated. }
    destruct (IH Hc m1 _ Hm1 Htr1) as (rs & m' & Hrest & Hm' & Hlen & Htr').
    exists (r :: rs), m'. split; [|split; [assumption|split]].
    + cbn [insert_links]. rewrite (bind_ok _ _ _ _ _ Hrun).
      now rewrite (bind_ok _ _ _ _ _ Hrest).
    + simpl. now rewrite Hlen.
    + eapply tracks_same_links; [|exact Htr'].
      intros e. simpl. destruct (r =? PASS); [|reflexivity].
      rewrite <- app_comm_cons, in_app_iff. simpl. rewrite in_app_iff. tauto.
Qed.

(** A property of the matrix that no single call destroys holds at the
    end of every session from a matrix that has it. *)
Lemma insert_links_invariant (I : matrix -> Prop) :
  (forall m s t r m', shaped m -> I m -> 0 <= s -> 0 <= t ->
     insert_link s t m = Ok (r, m') -> I m') ->
  forall calls, Forall not_negative calls ->
  forall m, shaped m -> I m ->
    exists rs m', insert_links calls m = Ok (rs, m') /\ shaped m' /\ I m'.
Proof.
  intros Hstep. induction calls as [|[s t] calls IH]; intros Hc m Hm HI.
  - exists [], m. split; [reflexivity|]. now split.
  - apply Forall_cons in Hc as [[Hs Ht] Hc]. simpl in Hs, Ht.
    destruct (insert_link_cases sized m s t Hm Hs Ht)
      as (r & m1 & Hrun & Hm1 & _).
    destruct (IH Hc m1 Hm1 (Hstep _ _ _ _ _ Hm HI Hs Ht Hrun))
      as (rs & m' & Hrest & Hm' & HI').
    exists (r :: rs), m'. split; [|now split].
    cbn [insert_links]. rewrite (bind_ok _ _ _ _ _ Hrun).
    now rewrite (bind_ok _ _ _ _ _ Hrest).
Qed.

Lemma insert_links_app (c1 c2 : list (Z * Z)) (m m1 m2 : matrix)
      (rs1 rs2 : list Z) :
  insert_links c1 m = Ok (rs1, m1) -> insert_links c2 m1 = Ok (rs2, m2) ->
  insert_links (c1 ++ c2) m = Ok (rs1 ++ rs2, m2).
Proof.
  revert m m1 rs1. induction c1 as [|[s t] c1 IH]; intros m m1 rs1 H1 H2.
  - simpl in H1. injection H1 as <- <-. exact H2.
  - cbn [insert_links app] in *. unfold bind in H1 |- *.
    destruct (insert_link s t m) as [[r m']|]; [|discriminate].
    destruct (insert_links c1 m') as [[rs m'']|] eqn:Hrest; [|discriminate].
    injection H1 as <- <-.
    now rewrite (IH _ _ _ Hrest H2).
Qed.

End Sessions.

(** ** Properties of the program

    Everything in this section is for a build in which [FIELD] is no wider
    than [int] ([well_sized]), and for matrices of the declared dimensions
    ([shaped]). *)

Section Properties.
Context {B : Build}.
Hypothesis sized : well_sized.

Lemma session_start (calls : list (Z * Z)) (m0 : matrix) :
  initialize_ancestors zeroed = Ok (tt, m0) ->
  session calls = insert_links calls m0.
Proof. intros H. unfold session. now rewrite (bind_ok _ _ _ _ _ H). Qed.

Lemma absorb_twice (rs r : list Z) (t : Z) :
  length rs = Z.to_nat FIELDS_PER_NODE ->
  length r = Z.to_nat FIELDS_PER_NODE -> node t ->
  absorb rs t (absorb rs t r) = absorb rs t r.
Proof.
  intros Ls Lr Ht. unfold absorb.
  destruct (row_bit r t) eqn:Hb; [|now rewrite Hb].
  rewrite (row_bit_union sized) by assumption. rewrite Hb. simpl.
  apply row_union_assoc_same.
Qed.

Lemma propagated_twice (m : matrix) (s t : Z) :
  shaped m -> node s -> node t ->
  propagated s t (propagated s t m) = propagated s t m.
Proof.
  intros Hm Hs Ht.
  assert (Hm' : shaped (propagated s t m)) by now apply (shaped_propagated sized).
  apply (shaped_rows_eq sized); [now apply (shaped_propagated sized)|assumption|].
  intros k Hk. unfold propagated at 1.
  rewrite (row_fmap sized) by assumption.
  unfold propagated. rewrite !(row_fmap sized) by assumption.
  rewrite absorb_self.
  apply absorb_twice; [| |assumption]; now apply (row_length sized).
Qed.

(** X22, on every well-sized build:
    after [initialize_ancestors] and any finite sequence of
    [insert_link] calls on arguments that are not negative, every call
    has returned and, for all nodes i and j, [is_ancestor(i, j)] is TRUE
    exactly when i = j or there is a path from j to i through the links for
    which [insert_link] returned PASS, and FALSE exactly when there is
    none: the relation is neither smaller nor larger than that closure. *)
Theorem ancestors_is_closure (calls : list (Z * Z)) :
  Forall not_negative calls ->
  exists rs m,
    session calls = Ok (rs, m) /\ length rs = length calls /\
    forall i j, node i -> node j ->
      (is_ancestor i j m = Ok (TRUE, m) <->
         i = j \/ path (accepted calls rs) j i) /\
      (is_ancestor i j m = Ok (FALSE, m) <->
         ~ (i = j \/ path (accepted calls rs) j i)).
Proof.
  intros Hc.
  destruct (initialize_ancestors_spec sized) as (m0 & Hinit & Hm0 & He0).
  assert (Htr0 : tracks m0 []).
  { intros i j Hi Hj. rewrite (He0 i j Hi Hj), clos_rt_no_link.
    rewrite Z.eqb_eq. split; congruence. }
  destruct (insert_links_tracks sized calls Hc m0 [] Hm0 Htr0)
    as (rs & m & Hrun & Hm & Hlen & Htr).
  rewrite app_nil_r in Htr.
  exists rs, m. split; [now rewrite (session_start calls m0 Hinit)|].
  split; [assumption|]. intros i j Hi Hj.
  assert (Hiff : entry m i j = true <-> i = j \/ path (accepted calls rs) j i).
  { rewrite (Htr i j Hi Hj), clos_rt_eq_or_trans. unfold path.
    split; (intros [H|H]; [left; congruence|now right]). }
  split.
  - now rewrite (is_ancestor_TRUE sized m i j Hm Hi Hj).
  - rewrite (is_ancestor_FALSE sized m i j Hm Hi Hj), <- Hiff.
    destruct (entry m i j); split; intros H; congruence.
Qed.

(** C2, on every well-sized build:
    for [insert_link(s, t)] on two nodes: if s = t the result is FAIL
    and the matrix is unchanged; otherwise, if [is_ancestor(s, t)] is TRUE
    the result is FAIL and the matrix is unchanged; otherwise (it is FALSE)
    [insert_ancestors(s, t)] is applied and the result is PASS. *)
Theorem insert_link_decision (m : matrix) (s t : Z) :
  shaped m -> node s -> node t ->
  (s = t -> insert_link s t m = Ok (FAIL, m)) /\
  (s <> t -> is_ancestor s t m = Ok (TRUE, m) ->
     insert_link s t m = Ok (FAIL, m)) /\
  (s <> t -> is_ancestor s t m <> Ok (TRUE, m) ->
     is_ancestor s t m = Ok (FALSE, m) /\
     exists m', insert_ancestors s t m = Ok (tt, m') /\
                insert_link s t m = Ok (PASS, m')).
Proof.
  intros Hm Hs Ht. rewrite (insert_link_spec sized m s t Hm Hs Ht).
  rewrite (is_ancestor_spec sized m s t Hm Hs Ht).
  split; [|split].
  - intros ->. now rewrite Z.eqb_refl.
  - intros _ H. destruct (entry m s t); [|discriminate].
    now rewrite orb_true_r.
  - intros Hne H. apply Z.eqb_neq in Hne as ->.
    destruct (entry m s t); [now destruct H|]. split; [reflexivity|].
    exists (propagated s t m). split; [|reflexivity].
    now apply (insert_ancestors_spec sized).
Qed.

(** X23, on every well-sized build:
    for every node x, [is_ancestor(x, x)] is TRUE after
    [initialize_ancestors] (the session with no call) and after every
    further [insert_link] call on arguments that are not negative,
    whatever its result. *)
Theorem is_ancestor_reflexive (calls : list (Z * Z)) :
  Forall not_negative calls ->
  exists rs m,
    session calls = Ok (rs, m) /\
    forall x, node x -> is_ancestor x x m = Ok (TRUE, m).
Proof.
  intros Hc.
  destruct (initialize_ancestors_spec sized) as (m0 & Hinit & Hm0 & He0).
  destruct (insert_links_invariant sized
              (fun m => forall x, node x -> entry m x x = true))
    with (calls := calls) (m := m0) as (rs & m & Hrun & Hm & Hrefl);
    try assumption.
  - intros m s t r m' Hm HI Hs Ht Hrun.
    destruct (insert_link_cases sized m s t Hm Hs Ht)
      as (r' & m1 & Hrun' & _ & Hcase).
    rewrite Hrun in Hrun'. injection Hrun' as <- <-.
    destruct Hcase as [[_ ->]|(_ & Ns & Nt & _ & ->)]; [assumption|].
    intros x Hx. rewrite (entry_propagated sized) by assumption.
    now rewrite (HI x Hx).
  - intros x Hx. rewrite (He0 x x Hx Hx). apply Z.eqb_refl.
  - exists rs, m. split; [now rewrite (session_start calls m0 Hinit)|].
    intros x Hx. apply (is_ancestor_TRUE sized); auto.
Qed.

(** C5, on every well-sized build:
    [insert_ancestors(s, t)] returns, and in its result each row k
    for which [is_ancestor(k, t)] was TRUE before the call is the bitwise
    union of that row with row s, each row k for which it was FALSE is
    unchanged, and the result is the same for every order in which the
    outer loop visits the rows. *)
Theorem insert_ancestors_rows (m : matrix) (s t : Z) :
  shaped m -> node s -> node t ->
  exists m',
    insert_ancestors s t m = Ok (tt, m') /\ shaped m' /\
    (forall k, node k -> is_ancestor k t m = Ok (TRUE, m) ->
       row m' k = row_union (row m k) (row m s)) /\
    (forall k, node k -> is_ancestor k t m = Ok (FALSE, m) ->
       row m' k = row m k) /\
    (forall k, node k -> is_ancestor k t m = Ok (TRUE, m) \/
                         is_ancestor k t m = Ok (FALSE, m)) /\
    (forall ks, ks ≡ₚ seqZ 0 TOTAL_NODES ->
       insert_ancestors_in_order ks s t m = Ok (tt, m')).
Proof.
  intros Hm Hs Ht. exists (propagated s t m).
  split; [now apply (insert_ancestors_spec sized)|].
  split; [now apply (shaped_propagated sized)|].
  assert (Hrow : forall k, node k ->
            row (propagated s t m) k = absorb (row m s) t (row m k)).
  { intros k Hk. unfold propagated. now apply (row_fmap sized). }
  split; [|split; [|split]].
  - intros k Hk H. apply (is_ancestor_TRUE sized) in H; try assumption.
    rewrite (Hrow k Hk). unfold absorb. unfold entry in H. now rewrite H.
  - intros k Hk H. apply (is_ancestor_FALSE sized) in H; try assumption.
    rewrite (Hrow k Hk). unfold absorb. unfold entry in H. now rewrite H.
  - intros k Hk. rewrite (is_ancestor_spec sized m k t Hm Hk Ht).
    destruct (entry m k t); [now left|now right].
  - intros ks Hp. now apply (insert_ancestors_in_order_spec sized).
Qed.

(** X24, on every well-sized build:
    for every [insert_link] call on arguments that are not negative,
    whatever its result, every pair of nodes (i, j) for which
    [is_ancestor(i, j)] is TRUE before the call still has it TRUE after. *)
Theorem insert_link_monotone (m : matrix) (s t : Z) :
  shaped m -> 0 <= s -> 0 <= t ->
  exists r m',
    insert_link s t m = Ok (r, m') /\ shaped m' /\
    forall i j, node i -> node j ->
      is_ancestor i j m = Ok (TRUE, m) -> is_ancestor i j m' = Ok (TRUE, m').
Proof.
  intros Hm Hs Ht.
  destruct (insert_link_cases sized m s t Hm Hs Ht)
    as (r & m' & Hrun & Hm' & Hcase).
  exists r, m'. split; [assumption|]. split; [assumption|].
  intros i j Hi Hj H.
  destruct Hcase as [[_ ->]|(_ & Ns & Nt & _ & ->)]; [assumption|].
  apply (is_ancestor_TRUE sized) in H; try assumption.
  apply (is_ancestor_TRUE sized); try assumption.
  rewrite (entry_propagated sized) by assumption. now rewrite H.
Qed.

(** C9, on every well-sized build:
    [insert_ancestors] is idempotent: on every matrix of the declared
    dimensions and for all nodes s and t, [insert_ancestors(s, t)] run
    again on its own result leaves that result as it is. *)
Theorem insert_ancestors_idempotent (m : matrix) (s t : Z) :
  shaped m -> node s -> node t ->
  exists m',
    insert_ancestors s t m = Ok (tt, m') /\
    insert_ancestors s t m' = Ok (tt, m').
Proof.
  intros Hm Hs Ht. exists (propagated s t m).
  split; [now apply (insert_ancestors_spec sized)|].
  rewrite (insert_ancestors_spec sized) by
    (try assumption; now apply (shaped_propagated sized)).
  now rewrite propagated_twice.
Qed.

(** C10, on every well-sized build:
    for all nodes s and t with s <> t, if [insert_link(s, t)] returns
    PASS then the same call repeated at once returns PASS again and leaves
    the matrix unchanged. *)
Theorem insert_link_repeated (m m' : matrix) (s t : Z) :
  shaped m -> node s -> node t -> s <> t ->
  insert_link s t m = Ok (PASS, m') ->
  insert_link s t m' = Ok (PASS, m').
Proof.
  intros Hm Hs Ht Hne Hrun.
  rewrite (insert_link_spec sized m s t Hm Hs Ht) in Hrun.
  destruct ((s =? t) || entry m s t) eqn:Hc; [discriminate|].
  injection Hrun as <-.
  rewrite (insert_link_spec sized) by
    (try assumption; now apply (shaped_propagated sized)).
  rewrite (entry_propagated sized) by assumption.
  apply orb_false_iff in Hc as [-> ->]. simpl.
  now rewrite propagated_twice.
Qed.

End Properties.

(** ** The fields stay values of type [FIELD]

    The model stores [Z.lor] of two fields as it is; no reduction modulo
    2^FIELD_SIZE is lost, since the fields never leave the range. *)

Lemma lor_range (n a b : Z) :
  0 <= n -> 0 <= a < 2 ^ n -> 0 <= b < 2 ^ n -> 0 <= Z.lor a b < 2 ^ n.
Proof.
  intros Hn Ha Hb.
  assert (H0 : 0 <= Z.lor a b) by (apply Z.lor_nonneg; lia).
  split; [assumption|].
  apply Z.bounded_iff_bits_nonneg; [assumption..|].
  intros l Hl. rewrite Z.lor_spec.
  rewrite (proj1 (Z.bounded_iff_bits_nonneg n a Hn (proj1 Ha)) (proj2 Ha) l Hl).
  now rewrite (proj1 (Z.bounded_iff_bits_nonneg n b Hn (proj1 Hb)) (proj2 Hb) l Hl).
Qed.

Section Fields.
Context {B : Build}.
Hypothesis sized : well_sized.

Lemma field_in_range (r : list Z) (c : Z) :
  Forall FIELD_value r -> FIELD_value (field r c).
Proof.
  intros Hr. unfold field, index.
  pose proof (FIELD_SIZE_pos sized).
  assert (Hz : FIELD_value 0).
  { unfold FIELD_value. split; [lia|]. apply Z.pow_pos_nonneg; lia. }
  destruct (0 <=? c); [|exact Hz].
  destruct (r !! Z.to_nat c) as [w|] eqn:Hw; [|exact Hz].
  rewrite Forall_lookup in Hr. exact (Hr _ _ Hw).
Qed.

Lemma row_in_range (m : matrix) (k : Z) :
  ranged m -> Forall FIELD_value (row m k).
Proof.
  intros Hm. unfold row, index. destruct (0 <=? k); [|constructor].
  destruct (m !! Z.to_nat k) as [r|] eqn:Hr; [|constructor].
  unfold ranged in Hm. rewrite Forall_lookup in Hm. exact (Hm _ _ Hr).
Qed.

Lemma row_union_in_range (r1 r2 : list Z) :
  Forall FIELD_value r1 -> Forall FIELD_value r2 ->
  Forall FIELD_value (row_union r1 r2).
Proof.
  intros H1. revert r2. unfold row_union.
  pose proof (FIELD_SIZE_pos sized).
  induction H1 as [|a r1 Ha _ IH]; intros r2 H2; [constructor|].
  destruct H2 as [|b r2 Hb H2]; [constructor|]. simpl.
  constructor; [|now apply IH].
  unfold FIELD_value in *. apply lor_range; lia.
Qed.

Lemma ranged_set_row (m : matrix) (k : Z) (r : list Z) :
  ranged m -> Forall FIELD_value r -> ranged (set_row m k r).
Proof. intros Hm Hr. unfold ranged, set_row. now apply Forall_insert. Qed.

Lemma ranged_propagated (m : matrix) (s t : Z) :
  ranged m -> ranged (propagated s t m).
Proof.
  intros Hm. unfold ranged, propagated. apply Forall_fmap.
  eapply Forall_impl; [exact Hm|]. intros r Hr. unfold compose, absorb.
  destruct (row_bit r t); [|exact Hr].
  apply row_union_in_range; [exact Hr|now apply row_in_range].
Qed.

Lemma ranged_with_bit (r : list Z) (j : Z) :
  node j -> Forall FIELD_value r -> Forall FIELD_value (with_bit r j).
Proof.
  intros Hj Hr. unfold with_bit. apply Forall_insert; [assumption|].
  destruct (bit_of_node sized j Hj) as [_ Hb].
  pose proof (field_in_range r (j / FIELD_SIZE) Hr) as Hw.
  unfold FIELD_value in *. apply lor_range; [lia|assumption|].
  split; [apply Z.lt_le_incl, Z.pow_pos_nonneg; lia|].
  apply Z.pow_lt_mono_r; lia.
Qed.

Lemma ranged_zeroed : ranged zeroed.
Proof.
  pose proof (FIELD_SIZE_pos sized).
  unfold ranged, zeroed. apply Forall_replicate, Forall_replicate.
  unfold FIELD_value. split; [lia|]. apply Z.pow_pos_nonneg; lia.
Qed.

Lemma ranged_set_diagonal (ks : list Z) :
  Forall node ks ->
  forall m m' : matrix, shaped m -> ranged m ->
    for_each ks (fun i => set_ancestor i i) m = Ok (tt, m') -> ranged m'.
Proof.
  induction ks as [|k ks IH]; intros Hks m m' Hm Hr Hrun.
  - injection Hrun as <-. exact Hr.
  - apply Forall_cons in Hks as [Hk Hks]. cbn [for_each] in Hrun.
    rewrite (bind_ok _ _ _ _ _ (set_ancestor_spec sized m k k Hm Hk Hk)) in Hrun.
    refine (IH Hks _ m' _ _ Hrun).
    + apply shaped_set_row; [assumption|]. rewrite with_bit_length.
      now apply (row_length sized).
    + apply ranged_set_row; [assumption|].
      apply ranged_with_bit; [assumption|]. now apply row_in_range.
Qed.

(** At the end of every session all fields are values of type [FIELD]. *)
Lemma session_ranged (calls : list (Z * Z)) :
  Forall not_negative calls ->
  exists rs m, session calls = Ok (rs, m) /\ shaped m /\ ranged m.
Proof.
  intros Hc.
  destruct (initialize_ancestors_spec sized) as (m0 & Hinit & Hm0 & _).
  assert (Hr0 : ranged m0).
  { refine (ranged_set_diagonal _ _ zeroed m0 shaped_zeroed ranged_zeroed Hinit).
    apply Forall_seqZ. unfold node. lia. }
  destruct (insert_links_invariant sized ranged) with (calls := calls) (m := m0)
    as (rs & m & Hrun & Hm & Hr); try assumption.
  - intros m s t r m' Hm Hr Hs Ht Hrun.
    destruct (insert_link_cases sized m s t Hm Hs Ht)
      as (r' & m1 & Hrun' & _ & Hcase).
    rewrite Hrun in Hrun'. injection Hrun' as <- <-.
    destruct Hcase as [[_ ->]|(_ & _ & _ & _ & ->)]; [assumption|].
    now apply ranged_propagated.
  - exists rs, m. split; [now rewrite (session_start calls m0 Hinit)|].
    now split.
Qed.

End Fields.

(** ** The chain 1 -> 2 -> ... -> k *)

Lemma chain_succ (k : Z) : 1 <= k -> chain (k + 1) = chain k ++ [(k, k + 1)].
Proof.
  intros Hk. unfold chain.
  replace (k + 1 - 1) with ((k - 1) + 1) by lia.
  rewrite seqZ_app by lia. rewrite fmap_app. f_equal.
  replace (1 + (k - 1)) with k by lia.
  rewrite seqZ_cons by lia. now rewrite seqZ_nil by lia.
Qed.

Section Chain.
Context {B : Build}.
Hypothesis sized : well_sized.

(** The entries after the chain up to k: the diagonal, and j below i for
    the nodes 1 .. k. *)
Lemma chain_entries (m0 : matrix) :
  shaped m0 ->
  (forall i j, node i -> node j -> entry m0 i j = (i =? j)) ->
  forall n : nat, Z.of_nat n + 1 < TOTAL_NODES ->
    exists m,
      insert_links (chain (Z.of_nat n + 1)) m0 = Ok (replicate n PASS, m) /\
      shaped m /\
      forall i j, node i -> node j ->
        entry m i j
        = (i =? j) || ((1 <=? j) && (j <? i) && (i <=? Z.of_nat n + 1)).
Proof.
  intros Hm0 He0. induction n as [|n IH]; intros Hn.
  - exists m0. split; [reflexivity|]. split; [assumption|].
    intros i j Hi Hj. rewrite (He0 i j Hi Hj). compare_all.
  - destruct IH as (m & Hrun & Hm & He); [lia|].
    set (k := Z.of_nat n + 1) in *.
    replace (Z.of_nat (S n) + 1) with (k + 1) by lia.
    assert (Nk : node k) by (unfold node, k; lia).
    assert (Nk' : node (k + 1)) by (unfold node, k; lia).
    assert (Hnew : entry m k (k + 1) = false).
    { rewrite (He _ _ Nk Nk'). compare_all. }
    exists (propagated k (k + 1) m). split; [|split].
    + rewrite chain_succ by (unfold k; lia).
      rewrite replicate_S_end.
      apply (insert_links_app (chain k)) with (m1 := m); [assumption|].
      cbn [insert_links].
      rewrite (bind_ok _ _ m (propagated k (k + 1) m) PASS); [reflexivity|].
      rewrite (insert_link_spec sized m k (k + 1) Hm Nk Nk'), Hnew.
      now replace (k =? k + 1) with false by (symmetry; apply Z.eqb_neq; lia).
    + now apply (shaped_propagated sized).
    + intros i j Hi Hj. rewrite (entry_propagated sized) by assumption.
      rewrite (He i j Hi Hj), (He i (k + 1) Hi Nk'), (He k j Nk Hj).
      unfold node in *. compare_all.
Qed.

(** C7, on every well-sized build:
    for every k with 1 <= k < TOTAL_NODES, after a fresh
    [initialize_ancestors] and the calls [insert_link(1,2)], ...,
    [insert_link(k-1,k)], each of which returns PASS,
    [is_ancestor(k, a)] is TRUE for every a with 1 <= a <= k and
    [is_ancestor(a, k)] is FALSE for every a with 1 <= a < k. *)
Theorem chain_ancestors (k : Z) :
  1 <= k < TOTAL_NODES ->
  exists m,
    session (chain k) = Ok (replicate (Z.to_nat (k - 1)) PASS, m) /\
    (forall a, 1 <= a <= k -> is_ancestor k a m = Ok (TRUE, m)) /\
    (forall a, 1 <= a < k -> is_ancestor a k m = Ok (FALSE, m)).
Proof.
  intros Hk.
  destruct (initialize_ancestors_spec sized) as (m0 & Hinit & Hm0 & He0).
  destruct (chain_entries m0 Hm0 He0 (Z.to_nat (k - 1))) as (m & Hrun & Hm & He).
  { lia. }
  replace (Z.of_nat (Z.to_nat (k - 1)) + 1) with k in * by lia.
  exists m. split; [now rewrite (session_start _ m0 Hinit)|]. split.
  - intros a Ha. apply (is_ancestor_TRUE sized); try (unfold node; lia).
    + assumption.
    + rewrite He by (unfold node; lia). compare_all.
  - intros a Ha. apply (is_ancestor_FALSE sized); try (unfold node; lia).
    + assumption.
    + rewrite He by (unfold node; lia). compare_all.
Qed.

End Chain.

(** ** The bit primitives, and the identifiers [insert_link] lets through *)

Section Primitives.
Context {B : Build}.
Hypothesis sized : well_sized.

(** Where [FIELD] is no wider than [int], [set_ancestor(d, a)] makes
    [is_ancestor(d, a)] TRUE and changes the answer for no other pair. *)
Lemma set_ancestor_round_trip (m : matrix) (d a : Z) :
  shaped m -> node d -> node a ->
  exists m',
    set_ancestor d a m = Ok (tt, m') /\
    is_ancestor d a m' = Ok (TRUE, m') /\
    forall d' a', node d' -> node a' -> (d', a') <> (d, a) ->
      exists b, is_ancestor d' a' m = Ok (b, m) /\
                is_ancestor d' a' m' = Ok (b, m').
Proof.
  intros Hm Hd Ha.
  destruct (set_ancestor_entries sized m d a Hm Hd Ha) as (m' & Hset & Hm' & He).
  exists m'. split; [assumption|]. split.
  - apply (is_ancestor_TRUE sized); try assumption.
    rewrite (He d a Hd Ha), !Z.eqb_refl. apply orb_true_r.
  - intros d' a' Hd' Ha' Hne.
    rewrite (is_ancestor_spec sized m d' a' Hm Hd' Ha').
    rewrite (is_ancestor_spec sized m' d' a' Hm' Hd' Ha').
    rewrite (He d' a' Hd' Ha').
    assert (Hoff : (d' =? d) && (a' =? a) = false).
    { destruct (Z.eqb_spec d' d) as [->|_]; [|reflexivity].
      destruct (Z.eqb_spec a' a) as [->|_]; [now destruct Hne|reflexivity]. }
    rewrite Hoff, orb_false_r. eexists. split; reflexivity.
Qed.

(** A negative start node passes the range test of [insert_link], and
    the row before the array is read. *)
Lemma insert_link_below_range (m : matrix) (s t : Z) :
  s < 0 -> node t -> insert_link s t m = Undefined OutOfBounds.
Proof.
  intros Hs Ht. unfold insert_link, node in *.
  pose proof (TOTAL_NODES_int sized).
  destruct (Z.geb_spec s TOTAL_NODES); [lia|].
  destruct (Z.geb_spec t TOTAL_NODES); [lia|].
  destruct (Z.eqb_spec s t); [lia|].
  unfold is_ancestor.
  destruct (bit_of_node sized t Ht) as [-> Hb].
  destruct (shl_one (t mod FIELD_SIZE) (FIELD_SIZE_le sized) Hb)
    as (v & -> & _).
  unfold bind, lift, load. now rewrite index_outside by lia.
Qed.

End Primitives.

(** C4: [insert_link(-1, 0)], on the source as it is: the start node is
    outside [0, TOTAL_NODES), yet the call does not return BAD_DATA; it
    goes on to [is_ancestor(-1, 0)], which reads [ancestors[-1][0]]. *)
Theorem insert_link_negative_start (m : matrix) :
  @insert_link ILP32 (-1) 0 m = Undefined OutOfBounds /\
  @insert_link LP64 (-1) 0 m = Undefined OutOfBounds.
Proof. split; reflexivity. Qed.

(** C6: the two primitives on a target whose [unsigned long] has 64 bits.
    For ancestor 32 the bit position is 32, and [1 << 32] is a shift of an
    [int] by its whole width, for which C defines no result.  For ancestor
    31 the mask is [1 << 31], the negative [int] [INT_MIN]; converted to
    the 64-bit [FIELD] it is 0xFFFFFFFF80000000, so that [set_ancestor(0, 31)]
    on a row whose first field is 0 sets the bits 31 to 63 of that field,
    among them bit 32, the place of ancestor 32. *)
Theorem set_ancestor_wide_shift (m : matrix) (r : list Z) (d : Z) :
  @set_ancestor LP64 d 32 m = Undefined ShiftTooWide /\
  @is_ancestor LP64 d 32 m = Undefined ShiftTooWide /\
  @set_ancestor LP64 0 31 ((0 :: r) :: m)
  = Ok (tt, (18446744071562067968 :: r) :: m) /\
  @entry LP64 ((18446744071562067968 :: r) :: m) 0 32 = true.
Proof. repeat split; reflexivity. Qed.

(** ** The matrix after initialisation, and the first links *)

Lemma Ok_pair_inv {A : Type} (a b : A) (m m' : matrix) :
  Ok (a, m) = Ok (b, m') -> a = b /\ m = m'.
Proof. intros H. injection H as -> ->. split; reflexivity. Qed.

Section Fresh.
Context {B : Build}.
Hypothesis sized : well_sized.

Lemma fresh_start : initialize_ancestors zeroed = Ok (tt, fresh).
Proof.
  destruct (initialize_ancestors_spec sized) as (m0 & Hinit & _).
  unfold fresh. now rewrite Hinit.
Qed.

Lemma shaped_fresh : shaped fresh.
Proof.
  destruct (initialize_ancestors_spec sized) as (m0 & Hinit & Hm0 & _).
  unfold fresh. now rewrite Hinit.
Qed.

Lemma entry_fresh (i j : Z) : node i -> node j -> entry fresh i j = (i =? j).
Proof.
  destruct (initialize_ancestors_spec sized) as (m0 & Hinit & _ & He).
  unfold fresh. rewrite Hinit. apply He.
Qed.

Lemma session_fresh (calls : list (Z * Z)) :
  session calls = insert_links calls fresh.
Proof. apply session_start, fresh_start. Qed.

(** A first link between two different nodes is accepted; it adds one
    entry to the diagonal. *)
Lemma first_link (s t : Z) :
  node s -> node t -> s <> t ->
  insert_link s t fresh = Ok (PASS, propagated s t fresh) /\
  shaped (propagated s t fresh) /\
  forall k a, node k -> node a ->
    entry (propagated s t fresh) k a = (k =? a) || ((k =? t) && (a =? s)).
Proof.
  intros Ns Nt Hne. pose proof shaped_fresh as Hm. split; [|split].
  - rewrite (insert_link_spec sized fresh s t Hm Ns Nt).
    rewrite (entry_fresh s t Ns Nt).
    now replace (s =? t) with false by (symmetry; now apply Z.eqb_neq).
  - now apply (shaped_propagated sized).
  - intros k a Nk Na. rewrite (entry_propagated sized) by assumption.
    rewrite !entry_fresh by assumption. now rewrite (Z.eqb_sym s a).
Qed.

Lemma insert_links_undefined (c1 rest : list (Z * Z)) (m m1 : matrix)
      (rs1 : list Z) (s t : Z) (f : fault) :
  insert_links c1 m = Ok (rs1, m1) -> insert_link s t m1 = Undefined f ->
  insert_links (c1 ++ (s, t) :: rest) m = Undefined f.
Proof.
  revert m rs1. induction c1 as [|[a b] c1 IH]; intros m rs1 H1 H2.
  - injection H1 as <- <-. cbn [app insert_links]. unfold bind. now rewrite H2.
  - cbn [insert_links app] in *. unfold bind in *.
    destruct (insert_link a b m) as [[r m']|]; [|discriminate].
    destruct (insert_links c1 m') as [[rs m'']|] eqn:Hrest; [|discriminate].
    injection H1 as <- <-.
    now rewrite (IH m' rs Hrest H2).
Qed.

Lemma insert_links_cons (s t r : Z) (rest : list (Z * Z)) (rs : list Z)
      (m m1 m2 : matrix) :
  insert_link s t m = Ok (r, m1) -> insert_links rest m1 = Ok (rs, m2) ->
  insert_links ((s, t) :: rest) m = Ok (r :: rs, m2).
Proof.
  intros H1 H2. cbn [insert_links].
  rewrite (bind_ok _ _ _ _ _ H1). now rewrite (bind_ok _ _ _ _ _ H2).
Qed.

(** A link between two nodes that the matrix does not forbid is accepted
    and propagated; one that it forbids is refused. *)
Lemma link_accepted (m : matrix) (s t : Z) :
  shaped m -> node s -> node t -> (s =? t) || entry m s t = false ->
  insert_link s t m = Ok (PASS, propagated s t m) /\
  shaped (propagated s t m).
Proof.
  intros Hm Ns Nt He. split; [|now apply (shaped_propagated sized)].
  now rewrite (insert_link_spec sized m s t Hm Ns Nt), He.
Qed.

Lemma link_refused (m : matrix) (s t : Z) :
  shaped m -> node s -> node t -> (s =? t) || entry m s t = true ->
  insert_link s t m = Ok (FAIL, m).
Proof.
  intros Hm Ns Nt He.
  now rewrite (insert_link_spec sized m s t Hm Ns Nt), He.
Qed.

End Fresh.

(** ** The source build with a 32-bit [long] *)

Section Source_ILP32.
#[local] Existing Instance ILP32.

Lemma ILP32_well_sized : @well_sized ILP32.
Proof.
  unfold well_sized, FIELD_SIZE, INT_BITS, INT_MAX. simpl.
  repeat split; lia.
Defined.

Lemma node_ILP32 (k : Z) : 0 <= k < 65536 -> @node ILP32 k.
Proof. intros H. exact H. Qed.


(** The entries after the links from 1 to 2 and from 2 to 3. *)
Lemma entry_two_links (k a : Z) :
  node k -> node a ->
  entry (propagated 2 3 (propagated 1 2 fresh)) k a
  = ((k =? a) || ((k =? 2) && (a =? 1)))
    || (((k =? 3) || ((k =? 2) && (3 =? 1)))
        && ((2 =? a) || ((2 =? 2) && (a =? 1)))).
Proof.
  intros Nk Na.
  assert (N1 : node 1) by (apply node_ILP32; lia).
  assert (N2 : node 2) by (apply node_ILP32; lia).
  assert (N3 : node 3) by (apply node_ILP32; lia).
  assert (Hne : 1 <> 2) by lia.
  destruct (first_link ILP32_well_sized 1 2 N1 N2 Hne) as (_ & Hm1 & He1).
  rewrite (entry_propagated ILP32_well_sized _ 2 3 k a Hm1 N2 N3 Nk Na).
  rewrite (He1 k a Nk Na), (He1 k 3 Nk N3), (He1 2 a N2 Na). reflexivity.
Qed.

(** The session [(1, 2); (2, 3)]: both links are accepted. *)
Lemma two_links :
  shaped (propagated 2 3 (propagated 1 2 fresh)) /\
  session [(1, 2); (2, 3)]
  = Ok ([PASS; PASS], propagated 2 3 (propagated 1 2 fresh)).
Proof.
  assert (N1 : node 1) by (apply node_ILP32; lia).
  assert (N2 : node 2) by (apply node_ILP32; lia).
  assert (N3 : node 3) by (apply node_ILP32; lia).
  assert (Hne : 1 <> 2) by lia.
  destruct (first_link ILP32_well_sized 1 2 N1 N2 Hne) as (Hfirst & Hm1 & He1).
  assert (He : (2 =? 3) || entry (propagated 1 2 fresh) 2 3 = false).
  { rewrite (He1 2 3 N2 N3). reflexivity. }
  destruct (link_accepted ILP32_well_sized _ 2 3 Hm1 N2 N3 He) as [Hsecond Hm2].
  split; [exact Hm2|].
  rewrite (session_fresh ILP32_well_sized).
  apply (insert_links_cons 1 2 PASS _ [PASS] fresh _ _ Hfirst).
  apply (insert_links_cons 2 3 PASS _ [] _ _ _ Hsecond).
  reflexivity.
Qed.

(** C1, on the source with a 32-bit [long]: in the session
    [insert_link(1, 2)], [insert_link(-1, 0)] the first call is accepted;
    the second, whose start node is negative, passes the range test of
    [insert_link] and reads [ancestors[-1][0]], outside the array.  The
    session has no defined result, and so no [is_ancestor] relation that
    could be the closure of the accepted links.  [insert_link] tests its
    arguments against [TOTAL_NODES] only, not against 0. *)
Theorem session_negative_link :
  @session ILP32 [(1, 2)] = Ok ([PASS], propagated 1 2 fresh) /\
  @insert_link ILP32 (-1) 0 (propagated 1 2 fresh) = Undefined OutOfBounds /\
  @session ILP32 [(1, 2); (-1, 0)] = Undefined OutOfBounds.
Proof.
  assert (N0 : node 0) by (apply node_ILP32; lia).
  assert (N1 : node 1) by (apply node_ILP32; lia).
  assert (N2 : node 2) by (apply node_ILP32; lia).
  assert (Hne : 1 <> 2) by lia.
  assert (Hneg : -1 < 0) by lia.
  destruct (first_link ILP32_well_sized 1 2 N1 N2 Hne) as (Hfirst & _).
  pose proof (insert_link_below_range ILP32_well_sized
                (propagated 1 2 fresh) (-1) 0 Hneg N0) as Hbad.
  assert (Hone : insert_links [(1, 2)] fresh
                 = Ok ([PASS], propagated 1 2 fresh)).
  { apply (insert_links_cons 1 2 PASS [] [] fresh _ _ Hfirst). reflexivity. }
  split; [|split].
  - rewrite (session_fresh ILP32_well_sized). exact Hone.
  - exact Hbad.
  - rewrite (session_fresh ILP32_well_sized).
    exact (insert_links_undefined [(1, 2)] [] fresh _ [PASS] (-1) 0
             OutOfBounds Hone Hbad).
Qed.



Lemma ancestors_is_closure_witness :
  Forall not_negative [(1, 2); (2, 3); (3, 1); (1, 3)] /\
  exists rs m,
    @session ILP32 [(1, 2); (2, 3); (3, 1); (1, 3)] = Ok (rs, m) /\
    length rs = 4%nat /\
    forall i j, @node ILP32 i -> @node ILP32 j ->
      (@is_ancestor ILP32 i j m = Ok (TRUE, m) <->
         i = j \/ path (accepted [(1, 2); (2, 3); (3, 1); (1, 3)] rs) j i) /\
      (@is_ancestor ILP32 i j m = Ok (FALSE, m) <->
         ~ (i = j \/ path (accepted [(1, 2); (2, 3); (3, 1); (1, 3)] rs) j i)).
Proof.
  assert (H : Forall not_negative [(1, 2); (2, 3); (3, 1); (1, 3)]).
  { repeat constructor; simpl; lia. }
  split; [exact H|].
  exact (@ancestors_is_closure ILP32 ILP32_well_sized _ H).
Defined.

Lemma insert_link_decision_witness :
  @shaped ILP32 (@zeroed ILP32) /\ @node ILP32 1 /\ @node ILP32 2 /\
  (1 = 2 -> @insert_link ILP32 1 2 zeroed = Ok (FAIL, zeroed)) /\
  (1 <> 2 -> @is_ancestor ILP32 1 2 zeroed = Ok (TRUE, zeroed) ->
     @insert_link ILP32 1 2 zeroed = Ok (FAIL, zeroed)) /\
  (1 <> 2 -> @is_ancestor ILP32 1 2 zeroed <> Ok (TRUE, zeroed) ->
     @is_ancestor ILP32 1 2 zeroed = Ok (FALSE, zeroed) /\
     exists m', @insert_ancestors ILP32 1 2 zeroed = Ok (tt, m') /\
                @insert_link ILP32 1 2 zeroed = Ok (PASS, m')).
Proof.
  assert (Hm : @shaped ILP32 (@zeroed ILP32)) by apply shaped_zeroed.
  assert (H1 : @node ILP32 1) by (unfold node; simpl; lia).
  assert (H2 : @node ILP32 2) by (unfold node; simpl; lia).
  split; [exact Hm|]. split; [exact H1|]. split; [exact H2|].
  exact (@insert_link_decision ILP32 ILP32_well_sized zeroed 1 2 Hm H1 H2).
Defined.

Lemma is_ancestor_reflexive_witness :
  Forall not_negative [(1, 2); (70000, 1); (2, 2); (2, 1)] /\
  exists rs m,
    @session ILP32 [(1, 2); (70000, 1); (2, 2); (2, 1)] = Ok (rs, m) /\
    forall x, @node ILP32 x -> @is_ancestor ILP32 x x m = Ok (TRUE, m).
Proof.
  assert (H : Forall not_negative [(1, 2); (70000, 1); (2, 2); (2, 1)]).
  { repeat constructor; simpl; lia. }
  split; [exact H|].
  exact (@is_ancestor_reflexive ILP32 ILP32_well_sized _ H).
Defined.

Lemma insert_ancestors_rows_witness :
  shaped fresh /\ node 1 /\ node 2 /\
  is_ancestor 2 2 fresh = Ok (TRUE, fresh) /\
  is_ancestor 2 1 fresh = Ok (FALSE, fresh) /\
  exists m',
    (insert_ancestors 1 2 fresh = Ok (tt, m') /\ shaped m' /\
     (forall k, node k ->
        is_ancestor k 2 fresh = Ok (TRUE, fresh) ->
        row m' k = row_union (row fresh k) (row fresh 1)) /\
     (forall k, node k ->
        is_ancestor k 2 fresh = Ok (FALSE, fresh) ->
        row m' k = row fresh k) /\
     (forall k, node k ->
        is_ancestor k 2 fresh = Ok (TRUE, fresh) \/
        is_ancestor k 2 fresh = Ok (FALSE, fresh)) /\
     (forall ks, ks ≡ₚ seqZ 0 TOTAL_NODES ->
        insert_ancestors_in_order ks 1 2 fresh = Ok (tt, m'))) /\
    row m' 2 = row_union (row fresh 2) (row fresh 1) /\
    is_ancestor 2 1 m' = Ok (TRUE, m').
Proof.
  assert (Hm : shaped fresh) by apply (shaped_fresh ILP32_well_sized).
  assert (H1 : node 1) by (unfold node; simpl; lia).
  assert (H2 : node 2) by (unfold node; simpl; lia).
  assert (Hne : 1 <> 2) by lia.
  destruct (first_link ILP32_well_sized 1 2 H1 H2 Hne) as (Hfirst & Hm1 & He1).
  assert (T22 : is_ancestor 2 2 fresh = Ok (TRUE, fresh)).
  { rewrite (is_ancestor_spec ILP32_well_sized fresh 2 2 Hm H2 H2).
    rewrite (entry_fresh ILP32_well_sized 2 2 H2 H2). reflexivity. }
  assert (T11 : is_ancestor 1 1 fresh = Ok (TRUE, fresh)).
  { rewrite (is_ancestor_spec ILP32_well_sized fresh 1 1 Hm H1 H1).
    rewrite (entry_fresh ILP32_well_sized 1 1 H1 H1). reflexivity. }
  assert (F21 : is_ancestor 2 1 fresh = Ok (FALSE, fresh)).
  { rewrite (is_ancestor_spec ILP32_well_sized fresh 2 1 Hm H2 H1).
    rewrite (entry_fresh ILP32_well_sized 2 1 H2 H1). reflexivity. }
  assert (T21 : is_ancestor 2 1 (propagated 1 2 fresh)
                = Ok (TRUE, propagated 1 2 fresh)).
  { rewrite (is_ancestor_spec ILP32_well_sized _ 2 1 Hm1 H2 H1).
    rewrite (He1 2 1 H2 H1). reflexivity. }
  split; [exact Hm|]. split; [exact H1|]. split; [exact H2|].
  split; [exact T22|]. split; [exact F21|].
  destruct (insert_ancestors_rows ILP32_well_sized fresh 1 2 Hm H1 H2)
    as (m' & Hrun & Hrest).
  assert (Hm' : m' = propagated 1 2 fresh).
  { rewrite (insert_ancestors_spec ILP32_well_sized fresh 1 2 Hm H1 H2) in Hrun.
    symmetry. exact (proj2 (Ok_pair_inv _ _ _ _ Hrun)). }
  exists m'. split; [split; [exact Hrun|exact Hrest]|]. split.
  - destruct Hrest as (_ & Hunion & _). exact (Hunion 2 H2 T22).
  - rewrite Hm'. exact T21.
Defined.

Lemma chain_ancestors_witness :
  1 <= 5 < @TOTAL_NODES ILP32 /\
  exists m,
    @session ILP32 (chain 5) = Ok (replicate (Z.to_nat (5 - 1)) PASS, m) /\
    (forall a, 1 <= a <= 5 -> @is_ancestor ILP32 5 a m = Ok (TRUE, m)) /\
    (forall a, 1 <= a < 5 -> @is_ancestor ILP32 a 5 m = Ok (FALSE, m)).
Proof.
  assert (H : 1 <= 5 < @TOTAL_NODES ILP32) by (simpl; lia).
  split; [exact H|].
  exact (@chain_ancestors ILP32 ILP32_well_sized 5 H).
Defined.

Lemma insert_link_monotone_witness :
  shaped fresh /\ 0 <= 1 /\ 0 <= 2 /\
  is_ancestor 1 1 fresh = Ok (TRUE, fresh) /\
  exists r m',
    (insert_link 1 2 fresh = Ok (r, m') /\ shaped m' /\
     forall i j, node i -> node j ->
       is_ancestor i j fresh = Ok (TRUE, fresh) ->
       is_ancestor i j m' = Ok (TRUE, m')) /\
    r = PASS /\ is_ancestor 1 1 m' = Ok (TRUE, m') /\
    is_ancestor 2 1 m' = Ok (TRUE, m').
Proof.
  assert (Hm : shaped fresh) by apply (shaped_fresh ILP32_well_sized).
  assert (H1 : node 1) by (unfold node; simpl; lia).
  assert (H2 : node 2) by (unfold node; simpl; lia).
  assert (Hne : 1 <> 2) by lia.
  destruct (first_link ILP32_well_sized 1 2 H1 H2 Hne) as (Hfirst & Hm1 & He1).
  assert (T22 : is_ancestor 2 2 fresh = Ok (TRUE, fresh)).
  { rewrite (is_ancestor_spec ILP32_well_sized fresh 2 2 Hm H2 H2).
    rewrite (entry_fresh ILP32_well_sized 2 2 H2 H2). reflexivity. }
  assert (T11 : is_ancestor 1 1 fresh = Ok (TRUE, fresh)).
  { rewrite (is_ancestor_spec ILP32_well_sized fresh 1 1 Hm H1 H1).
    rewrite (entry_fresh ILP32_well_sized 1 1 H1 H1). reflexivity. }
  assert (F21 : is_ancestor 2 1 fresh = Ok (FALSE, fresh)).
  { rewrite (is_ancestor_spec ILP32_well_sized fresh 2 1 Hm H2 H1).
    rewrite (entry_fresh ILP32_well_sized 2 1 H2 H1). reflexivity. }
  assert (T21 : is_ancestor 2 1 (propagated 1 2 fresh)
                = Ok (TRUE, propagated 1 2 fresh)).
  { rewrite (is_ancestor_spec ILP32_well_sized _ 2 1 Hm1 H2 H1).
    rewrite (He1 2 1 H2 H1). reflexivity. }
  assert (P1 : 0 <= 1) by lia.
  assert (P2 : 0 <= 2) by lia.
  split; [exact Hm|]. split; [exact P1|]. split; [exact P2|].
  split; [exact T11|].
  destruct (insert_link_monotone ILP32_well_sized fresh 1 2 Hm P1 P2)
    as (r & m' & Hrun & Hrest).
  assert (Hr : r = PASS /\ m' = propagated 1 2 fresh).
  { rewrite Hfirst in Hrun. destruct (Ok_pair_inv _ _ _ _ Hrun) as [<- <-].
    split; reflexivity. }
  destruct Hr as [Hr Hm'].
  exists r, m'. split; [split; [exact Hrun|exact Hrest]|].
  split; [exact Hr|]. split.
  - destruct Hrest as [_ Hmono]. exact (Hmono 1 1 H1 H1 T11).
  - rewrite Hm'. exact T21.
Defined.

Lemma insert_ancestors_idempotent_witness :
  shaped fresh /\ node 1 /\ node 2 /\
  is_ancestor 2 1 fresh = Ok (FALSE, fresh) /\
  exists m',
    (insert_ancestors 1 2 fresh = Ok (tt, m') /\
     insert_ancestors 1 2 m' = Ok (tt, m')) /\
    is_ancestor 2 1 m' = Ok (TRUE, m').
Proof.
  assert (Hm : shaped fresh) by apply (shaped_fresh ILP32_well_sized).
  assert (H1 : node 1) by (unfold node; simpl; lia).
  assert (H2 : node 2) by (unfold node; simpl; lia).
  assert (Hne : 1 <> 2) by lia.
  destruct (first_link ILP32_well_sized 1 2 H1 H2 Hne) as (Hfirst & Hm1 & He1).
  assert (T22 : is_ancestor 2 2 fresh = Ok (TRUE, fresh)).
  { rewrite (is_ancestor_spec ILP32_well_sized fresh 2 2 Hm H2 H2).
    rewrite (entry_fresh ILP32_well_sized 2 2 H2 H2). reflexivity. }
  assert (T11 : is_ancestor 1 1 fresh = Ok (TRUE, fresh)).
  { rewrite (is_ancestor_spec ILP32_well_sized fresh 1 1 Hm H1 H1).
    rewrite (entry_fresh ILP32_well_sized 1 1 H1 H1). reflexivity. }
  assert (F21 : is_ancestor 2 1 fresh = Ok (FALSE, fresh)).
  { rewrite (is_ancestor_spec ILP32_well_sized fresh 2 1 Hm H2 H1).
    rewrite (entry_fresh ILP32_well_sized 2 1 H2 H1). reflexivity. }
  assert (T21 : is_ancestor 2 1 (propagated 1 2 fresh)
                = Ok (TRUE, propagated 1 2 fresh)).
  { rewrite (is_ancestor_spec ILP32_well_sized _ 2 1 Hm1 H2 H1).
    rewrite (He1 2 1 H2 H1). reflexivity. }
  split; [exact Hm|]. split; [exact H1|]. split; [exact H2|].
  split; [exact F21|].
  destruct (insert_ancestors_idempotent ILP32_well_sized fresh 1 2 Hm H1 H2)
    as (m' & Hrun & Hagain).
  assert (Hm' : m' = propagated 1 2 fresh).
  { rewrite (insert_ancestors_spec ILP32_well_sized fresh 1 2 Hm H1 H2) in Hrun.
    symmetry. exact (proj2 (Ok_pair_inv _ _ _ _ Hrun)). }
  exists m'. split; [split; [exact Hrun|exact Hagain]|].
  rewrite Hm'. exact T21.
Defined.

Lemma insert_link_repeated_witness :
  shaped fresh /\ node 1 /\ node 2 /\ 1 <> 2 /\
  insert_link 1 2 fresh = Ok (PASS, propagated 1 2 fresh) /\
  insert_link 1 2 (propagated 1 2 fresh) = Ok (PASS, propagated 1 2 fresh) /\
  is_ancestor 2 1 fresh = Ok (FALSE, fresh) /\
  is_ancestor 2 1 (propagated 1 2 fresh) = Ok (TRUE, propagated 1 2 fresh).
Proof.
  assert (Hm : shaped fresh) by apply (shaped_fresh ILP32_well_sized).
  assert (H1 : node 1) by (unfold node; simpl; lia).
  assert (H2 : node 2) by (unfold node; simpl; lia).
  assert (Hne : 1 <> 2) by lia.
  destruct (first_link ILP32_well_sized 1 2 H1 H2 Hne) as (Hfirst & Hm1 & He1).
  assert (T22 : is_ancestor 2 2 fresh = Ok (TRUE, fresh)).
  { rewrite (is_ancestor_spec ILP32_well_sized fresh 2 2 Hm H2 H2).
    rewrite (entry_fresh ILP32_well_sized 2 2 H2 H2). reflexivity. }
  assert (T11 : is_ancestor 1 1 fresh = Ok (TRUE, fresh)).
  { rewrite (is_ancestor_spec ILP32_well_sized fresh 1 1 Hm H1 H1).
    rewrite (entry_fresh ILP32_well_sized 1 1 H1 H1). reflexivity. }
  assert (F21 : is_ancestor 2 1 fresh = Ok (FALSE, fresh)).
  { rewrite (is_ancestor_spec ILP32_well_sized fresh 2 1 Hm H2 H1).
    rewrite (entry_fresh ILP32_well_sized 2 1 H2 H1). reflexivity. }
  assert (T21 : is_ancestor 2 1 (propagated 1 2 fresh)
                = Ok (TRUE, propagated 1 2 fresh)).
  { rewrite (is_ancestor_spec ILP32_well_sized _ 2 1 Hm1 H2 H1).
    rewrite (He1 2 1 H2 H1). reflexivity. }
  split; [exact Hm|]. split; [exact H1|]. split; [exact H2|].
  split; [exact Hne|]. split; [exact Hfirst|].
  split; [|split; [exact F21|exact T21]].
  exact (insert_link_repeated ILP32_well_sized fresh (propagated 1 2 fresh) 1 2
           Hm H1 H2 Hne Hfirst).
Defined.

End Source_ILP32.

(** ** Paths under one more link *)

Section Paths.
Context {A : Type} (R : relation A) (s t : A).

Lemma clos_t_mono (Q : relation A) (a b : A) :
  (forall x y, R x y -> Q x y) -> clos_trans A R a b -> clos_trans A Q a b.
Proof.
  intros HQ H. induction H as [x y Hxy|x y z _ IH1 _ IH2].
  - apply t_step. now apply HQ.
  - now apply t_trans with y.
Qed.

Lemma clos_t_clos_rt (a b : A) : clos_trans A R a b -> clos_refl_trans A R a b.
Proof. intros H. apply clos_rt_eq_or_trans. now right. Qed.

(** A path that may use the link [s -> t] either does without it, or
    leads to [s] and goes on from [t]. *)
Lemma clos_t_add_link (a b : A) :
  clos_trans A (fun x y => R x y \/ (x = s /\ y = t)) a b ->
  clos_trans A R a b \/
  (clos_refl_trans A R a s /\ clos_refl_trans A R t b).
Proof.
  intros H. induction H as [x y [Hxy|[-> ->]]|x y z _ IH1 _ IH2].
  - left. now apply t_step.
  - right. split; apply rt_refl.
  - destruct IH1 as [H1|[H1 H1']], IH2 as [H2|[H2 H2']].
    + left. now apply t_trans with y.
    + right. split; [|assumption].
      apply rt_trans with y; [now apply clos_t_clos_rt|assumption].
    + right. split; [assumption|].
      apply rt_trans with y; [assumption|now apply clos_t_clos_rt].
    + right. now split.
Qed.

End Paths.

(** ** Sessions keep the graph of accepted links acyclic *)

Section Acyclic.
Context {B : Build}.
Hypothesis sized : well_sized.

Lemma sound_same_links (m : matrix) (E E' : list (Z * Z)) :
  (forall e, In e E <-> In e E') -> sound m E -> sound m E'.
Proof.
  intros HE (Hm & Hr & Htr & Hac & Hn).
  split; [assumption|]. split; [assumption|].
  split; [now apply (tracks_same_links m E E')|]. split.
  - intros x Hx. apply (Hac x). unfold path in *.
    eapply clos_t_mono; [|exact Hx]. intros a b. unfold link. apply HE.
  - rewrite Forall_forall in *. intros c Hc. apply Hn.
    apply list_elem_of_In, HE, list_elem_of_In, Hc.
Qed.

Lemma sound_start (m0 : matrix) :
  initialize_ancestors zeroed = Ok (tt, m0) -> sound m0 [].
Proof.
  intros Hinit.
  destruct (initialize_ancestors_spec sized) as (m0' & Hinit' & Hm0 & He0).
  rewrite Hinit in Hinit'. injection Hinit' as <-.
  split; [assumption|]. split; [|split; [|split]].
  - refine (ranged_set_diagonal sized _ _ zeroed m0 shaped_zeroed
              (ranged_zeroed sized) Hinit).
    apply Forall_seqZ. unfold node. lia.
  - intros i j Hi Hj. rewrite (He0 i j Hi Hj), clos_rt_no_link.
    rewrite Z.eqb_eq. split; congruence.
  - intros x Hx. unfold path in Hx.
    assert (Hno : forall a b, clos_trans Z (link []) a b -> False).
    { intros a b H. induction H as [? ? []|]; assumption. }
    exact (Hno _ _ Hx).
  - constructor.
Qed.

(** One call from a sound state: it returns, and the state stays sound
    for the links accepted so far. *)
Lemma sound_step (m : matrix) (E : list (Z * Z)) (s t : Z) :
  sound m E -> 0 <= s -> 0 <= t ->
  exists r m',
    insert_link s t m = Ok (r, m') /\
    sound m' (if r =? PASS then (s, t) :: E else E).
Proof.
  intros (Hm & Hr & Htr & Hac & Hn) Hs Ht.
  destruct (insert_link_cases sized m s t Hm Hs Ht)
    as (r & m' & Hrun & Hm' & Hcase).
  exists r, m'. split; [assumption|].
  destruct Hcase as [[Hne ->]|(-> & Ns & Nt & He & ->)].
  - apply Z.eqb_neq in Hne as ->. unfold sound. tauto.
  - simpl. split; [assumption|]. split; [now apply ranged_propagated|].
    split; [now apply (tracks_propagated sized)|]. split.
    + intros x Hx. unfold path in Hx.
      assert (Hx' : clos_trans Z
                (fun a b => link E a b \/ (a = s /\ b = t)) x x).
      { eapply clos_t_mono; [|exact Hx]. intros a b. unfold link. simpl.
        intros [H|H]; [right; split; congruence|now left]. }
      apply clos_t_add_link in Hx' as [Hx'|[H1 H2]].
      * exact (Hac x Hx').
      * assert (Hts : clos_refl_trans Z (link E) t s)
          by now apply rt_trans with x.
        apply (Htr s t Ns Nt) in Hts. congruence.
    + constructor; [now split|assumption].
Qed.

Lemma insert_links_sound (calls : list (Z * Z)) :
  Forall not_negative calls ->
  forall (m : matrix) (E : list (Z * Z)),
    sound m E ->
    exists rs m',
      insert_links calls m = Ok (rs, m') /\ length rs = length calls /\
      sound m' (accepted calls rs ++ E).
Proof.
  induction calls as [|[s t] calls IH]; intros Hc m E Hs.
  - exists [], m. split; [reflexivity|]. split; [reflexivity|exact Hs].
  - apply Forall_cons in Hc as [[H1 H2] Hc]. simpl in H1, H2.
    destruct (sound_step m E s t Hs H1 H2) as (r & m1 & Hrun & Hs1).
    destruct (IH Hc m1 _ Hs1) as (rs & m' & Hrest & Hlen & Hs').
    exists (r :: rs), m'. split; [|split].
    + cbn [insert_links]. rewrite (bind_ok _ _ _ _ _ Hrun).
      now rewrite (bind_ok _ _ _ _ _ Hrest).
    + simpl. now rewrite Hlen.
    + eapply sound_same_links; [|exact Hs'].
      intros e. simpl. destruct (r =? PASS); [|reflexivity].
      rewrite <- app_comm_cons, in_app_iff. simpl. rewrite in_app_iff. tauto.
Qed.

(** Every session on arguments that are not negative ends in a sound
    state. *)
Lemma session_sound (calls : list (Z * Z)) :
  Forall not_negative calls ->
  exists rs m,
    session calls = Ok (rs, m) /\ length rs = length calls /\
    sound m (accepted calls rs).
Proof.
  intros Hc.
  destruct (initialize_ancestors_spec sized) as (m0 & Hinit & _).
  destruct (insert_links_sound calls Hc m0 [] (sound_start m0 Hinit))
    as (rs & m & Hrun & Hlen & Hs).
  rewrite app_nil_r in Hs. exists rs, m.
  split; [now rewrite (session_start calls m0 Hinit)|]. now split.
Qed.

(** X1, on every well-sized build:
    the links accepted in a session never contain a cycle: no node reaches
    itself by a path of accepted links. *)
Theorem accepted_links_acyclic (calls : list (Z * Z)) :
  Forall not_negative calls ->
  exists rs m,
    session calls = Ok (rs, m) /\
    forall x, ~ path (accepted calls rs) x x.
Proof.
  intros Hc. destruct (session_sound calls Hc) as (rs & m & Hrun & _ & Hs).
  exists rs, m. split; [assumption|]. apply Hs.
Qed.

(** X2, on every well-sized build:
    at the end of a session, [insert_link(s, t)] on two nodes returns FAIL
    exactly when s = t or the accepted links already lead from t to s (the
    new link would close a cycle), and PASS exactly when they do not. *)
Theorem insert_link_verdict (calls : list (Z * Z)) :
  Forall not_negative calls ->
  exists rs m,
    session calls = Ok (rs, m) /\
    forall s t, node s -> node t ->
      (insert_link s t m = Ok (FAIL, m) <->
         s = t \/ path (accepted calls rs) t s) /\
      ((exists m', insert_link s t m = Ok (PASS, m')) <->
         ~ (s = t \/ path (accepted calls rs) t s)).
Proof.
  intros Hc. destruct (session_sound calls Hc) as (rs & m & Hrun & _ & Hs).
  destruct Hs as (Hm & _ & Htr & _ & _).
  exists rs, m. split; [assumption|]. intros s t Ns Nt.
  assert (Hiff : (s =? t) || entry m s t = true <->
                 s = t \/ path (accepted calls rs) t s).
  { rewrite orb_true_iff, Z.eqb_eq, (Htr s t Ns Nt), clos_rt_eq_or_trans.
    unfold path. intuition congruence. }
  rewrite (insert_link_spec sized m s t Hm Ns Nt).
  destruct ((s =? t) || entry m s t); split; split.
  - intros _. now apply Hiff.
  - reflexivity.
  - intros [m' H]. discriminate.
  - intros H. destruct H. now apply Hiff.
  - discriminate.
  - intros H. apply Hiff in H. discriminate.
  - intros _ H. apply Hiff in H. discriminate.
  - intros _. eexists. reflexivity.
Qed.

(** X3, on every well-sized build:
    at the end of a session the answers of [is_ancestor] are transitive:
    an ancestor of an ancestor of a node is an ancestor of that node. *)
Theorem is_ancestor_transitive (calls : list (Z * Z)) :
  Forall not_negative calls ->
  exists rs m,
    session calls = Ok (rs, m) /\
    forall i j k, node i -> node j -> node k ->
      is_ancestor i j m = Ok (TRUE, m) -> is_ancestor j k m = Ok (TRUE, m) ->
      is_ancestor i k m = Ok (TRUE, m).
Proof.
  intros Hc. destruct (session_sound calls Hc) as (rs & m & Hrun & _ & Hs).
  destruct Hs as (Hm & _ & Htr & _ & _).
  exists rs, m. split; [assumption|]. intros i j k Ni Nj Nk Hij Hjk.
  apply (is_ancestor_TRUE sized) in Hij, Hjk; try assumption.
  apply (is_ancestor_TRUE sized); try assumption.
  apply (Htr i k Ni Nk). apply rt_trans with j.
  - now apply (Htr j k Nj Nk).
  - now apply (Htr i j Ni Nj).
Qed.

(** X4, on every well-sized build:
    at the end of a session no two different nodes are ancestors of each
    other. *)
Theorem is_ancestor_antisymmetric (calls : list (Z * Z)) :
  Forall not_negative calls ->
  exists rs m,
    session calls = Ok (rs, m) /\
    forall i j, node i -> node j ->
      is_ancestor i j m = Ok (TRUE, m) -> is_ancestor j i m = Ok (TRUE, m) ->
      i = j.
Proof.
  intros Hc. destruct (session_sound calls Hc) as (rs & m & Hrun & _ & Hs).
  destruct Hs as (Hm & _ & Htr & Hac & _).
  exists rs, m. split; [assumption|]. intros i j Ni Nj Hij Hji.
  apply (is_ancestor_TRUE sized) in Hij, Hji; try assumption.
  apply (Htr i j Ni Nj), clos_rt_eq_or_trans in Hij.
  apply (Htr j i Nj Ni), clos_rt_eq_or_trans in Hji.
  destruct Hij as [Hij|Hij]; [congruence|].
  destruct Hji as [Hji|Hji]; [congruence|].
  destruct (Hac i). unfold path. now apply t_trans with j.
Qed.

End Acyclic.

(** ** The matrix holds the relation and nothing else *)

Lemma lor_pow2_set (w b : Z) :
  0 <= b -> Z.testbit w b = true -> Z.lor w (2 ^ b) = w.
Proof.
  intros Hb Hw. apply Z.bits_inj'. intros n Hn.
  rewrite testbit_lor_pow2 by assumption.
  destruct (Z.eqb_spec n b) as [->|_]; [now rewrite Hw|apply orb_false_r].
Qed.

Section Extensional.
Context {B : Build}.
Hypothesis sized : well_sized.

(** Bit [n] of field [c] is the bit of node [c * FIELD_SIZE + n]. *)
Lemma node_of_position (c n : Z) :
  0 <= c < FIELDS_PER_NODE -> 0 <= n < FIELD_SIZE ->
  node (c * FIELD_SIZE + n) /\
  (c * FIELD_SIZE + n) / FIELD_SIZE = c /\
  (c * FIELD_SIZE + n) mod FIELD_SIZE = n.
Proof.
  intros Hc Hn. pose proof (TOTAL_NODES_split sized) as HN.
  pose proof (FIELD_SIZE_pos sized). split; [|split].
  - unfold node. nia.
  - symmetry. apply (Z.div_unique _ _ c n); lia.
  - symmetry. apply (Z.mod_unique _ _ c n); lia.
Qed.

Lemma field_ext (r1 r2 : list Z) (c : Z) :
  Forall FIELD_value r1 -> Forall FIELD_value r2 ->
  0 <= c < FIELDS_PER_NODE ->
  (forall j, node j -> row_bit r1 j = row_bit r2 j) ->
  field r1 c = field r2 c.
Proof.
  intros H1 H2 Hc Hbits. pose proof (FIELD_SIZE_pos sized).
  pose proof (field_in_range sized r1 c H1) as [F1 F1'].
  pose proof (field_in_range sized r2 c H2) as [F2 F2'].
  apply Z.bits_inj'. intros n Hn.
  destruct (Z_lt_le_dec n FIELD_SIZE) as [Hlt|Hge].
  - destruct (node_of_position c n Hc) as (Nj & Hq & Hr); [lia|].
    specialize (Hbits _ Nj). unfold row_bit in Hbits.
    now rewrite Hq, Hr in Hbits.
  - assert (Hw : 0 <= FIELD_SIZE) by lia.
    rewrite (proj1 (Z.bounded_iff_bits_nonneg FIELD_SIZE _ Hw F1) F1' n Hge).
    now rewrite (proj1 (Z.bounded_iff_bits_nonneg FIELD_SIZE _ Hw F2) F2' n Hge).
Qed.

Lemma row_ext (r1 r2 : list Z) :
  length r1 = Z.to_nat FIELDS_PER_NODE -> length r2 = Z.to_nat FIELDS_PER_NODE ->
  Forall FIELD_value r1 -> Forall FIELD_value r2 ->
  (forall j, node j -> row_bit r1 j = row_bit r2 j) -> r1 = r2.
Proof.
  intros L1 L2 H1 H2 Hbits. apply list_eq. intros i.
  destruct (decide (i < length r1)%nat) as [Hi|Hi].
  - assert (Hc : 0 <= Z.of_nat i < FIELDS_PER_NODE) by lia.
    pose proof (field_ext r1 r2 _ H1 H2 Hc Hbits) as Hf.
    unfold field, index in Hf.
    destruct (Z.leb_spec 0 (Z.of_nat i)); [|lia]. rewrite Nat2Z.id in Hf.
    destruct (lookup_lt_is_Some_2 r1 i Hi) as [a Ha].
    assert (Hi2 : (i < length r2)%nat) by lia.
    destruct (lookup_lt_is_Some_2 r2 i Hi2) as [b Hb].
    rewrite Ha, Hb in *. simpl in Hf. now subst.
  - rewrite !lookup_ge_None_2; [reflexivity|lia|lia].
Qed.

(** Two matrices of [FIELD] values with the declared dimensions that give
    the same entries are the same matrix. *)
Lemma matrix_ext (m1 m2 : matrix) :
  shaped m1 -> shaped m2 -> ranged m1 -> ranged m2 ->
  (forall i j, node i -> node j -> entry m1 i j = entry m2 i j) -> m1 = m2.
Proof.
  intros S1 S2 R1 R2 He. apply (shaped_rows_eq sized); try assumption.
  intros k Hk. apply row_ext.
  - now apply (row_length sized).
  - now apply (row_length sized).
  - now apply (row_in_range m1 k).
  - now apply (row_in_range m2 k).
  - intros j Hj. exact (He k j Hk Hj).
Qed.

(** [set_ancestor] on an entry that is set already changes nothing. *)
Lemma set_ancestor_already (m : matrix) (d a : Z) :
  shaped m -> node d -> node a -> entry m d a = true ->
  set_ancestor d a m = Ok (tt, m).
Proof.
  intros Hm Hd Ha He. rewrite (set_ancestor_spec sized m d a Hm Hd Ha).
  assert (Hsame : with_bit (row m d) a = row m d).
  { unfold with_bit. apply list_insert_id.
    destruct (chunk_of_node sized a Ha) as [_ Hc].
    destruct (bit_of_node sized a Ha) as [_ Hb].
    pose proof (row_length sized m d Hm Hd) as Ld.
    assert (Hin : 0 <= a / FIELD_SIZE < Z.of_nat (length (row m d))) by lia.
    pose proof (index_field (row m d) (a / FIELD_SIZE) Hin) as Hf.
    unfold index in Hf. destruct (Z.leb_spec 0 (a / FIELD_SIZE)); [|lia].
    rewrite Hf. f_equal. symmetry. apply lor_pow2_set; [lia|exact He]. }
  rewrite Hsame. now rewrite (set_row_same sized).
Qed.

End Extensional.

(** ** How the operations compose *)

Lemma for_each_app (l1 l2 : list Z) (body : Z -> M unit) (m m1 : matrix) :
  for_each l1 body m = Ok (tt, m1) ->
  for_each (l1 ++ l2) body m = for_each l2 body m1.
Proof.
  revert m. induction l1 as [|k l1 IH]; intros m H.
  - injection H as <-. reflexivity.
  - cbn [for_each app] in *. unfold bind in *.
    destruct (body k m) as [[[] m']|]; [|discriminate]. now apply IH.
Qed.

Section Composition.
Context {B : Build}.
Hypothesis sized : well_sized.

Lemma set_ancestor_full (m : matrix) (d a : Z) :
  shaped m -> ranged m -> node d -> node a ->
  exists m',
    set_ancestor d a m = Ok (tt, m') /\ shaped m' /\ ranged m' /\
    forall i j, node i -> node j ->
      entry m' i j = entry m i j || ((i =? d) && (j =? a)).
Proof.
  intros Hm Hr Hd Ha.
  destruct (set_ancestor_entries sized m d a Hm Hd Ha) as (m' & Hset & Hm' & He).
  exists m'. split; [assumption|]. split; [assumption|]. split; [|assumption].
  rewrite (set_ancestor_spec sized m d a Hm Hd Ha) in Hset.
  injection Hset as <-. apply ranged_set_row; [assumption|].
  apply (ranged_with_bit sized); [assumption|]. now apply row_in_range.
Qed.

Lemma diagonal_already (ks : list Z) (m : matrix) :
  shaped m -> Forall node ks -> (forall k, k ∈ ks -> entry m k k = true) ->
  for_each ks (fun i => set_ancestor i i) m = Ok (tt, m).
Proof.
  intros Hm Hks Hd. induction ks as [|k ks IH]; [reflexivity|].
  apply Forall_cons in Hks as [Hk Hks]. cbn [for_each].
  rewrite (bind_ok _ _ m m tt).
  - apply IH; [assumption|]. intros k' Hk'. apply Hd. now apply elem_of_cons; right.
  - apply (set_ancestor_already sized); try assumption.
    apply Hd. now apply elem_of_cons; left.
Qed.

(** X5, on every well-sized build:
    a link that [insert_link] refuses with FAIL is refused with FAIL again
    after any further calls (on arguments that are not negative): nothing
    that is inserted later makes a refused link acceptable. *)
Theorem rejected_stays_rejected (m : matrix) (s t : Z) (calls : list (Z * Z)) :
  shaped m -> node s -> node t -> Forall not_negative calls ->
  insert_link s t m = Ok (FAIL, m) ->
  exists rs m',
    insert_links calls m = Ok (rs, m') /\ insert_link s t m' = Ok (FAIL, m').
Proof.
  intros Hm Ns Nt Hc Hfail.
  rewrite (insert_link_spec sized m s t Hm Ns Nt) in Hfail.
  destruct ((s =? t) || entry m s t) eqn:Hcond; [clear Hfail|discriminate].
  destruct (insert_links_invariant sized
              (fun m => (s =? t) || entry m s t = true))
    with (calls := calls) (m := m) as (rs & m' & Hrun & Hm' & Hcond');
    try assumption.
  - intros m0 a b r m1 Hm0 HI Ha Hb Hrun.
    destruct (insert_link_cases sized m0 a b Hm0 Ha Hb)
      as (r' & m1' & Hrun' & _ & Hcase).
    rewrite Hrun in Hrun'. injection Hrun' as <- <-.
    destruct Hcase as [[_ ->]|(_ & Na & Nb & _ & ->)]; [assumption|].
    rewrite (entry_propagated sized) by assumption.
    destruct (s =? t); [reflexivity|]. simpl in *. now rewrite HI.
  - exists rs, m'. split; [assumption|].
    rewrite (insert_link_spec sized m' s t Hm' Ns Nt). now rewrite Hcond'.
Qed.

(** X6, on every well-sized build:
    at the end of a session, a link from s to t that the accepted links
    already imply (they lead from s to t) is accepted with PASS and leaves
    the matrix exactly as it was. *)
Theorem redundant_link_changes_nothing (calls : list (Z * Z)) :
  Forall not_negative calls ->
  exists rs m,
    session calls = Ok (rs, m) /\
    forall s t, node s -> node t -> path (accepted calls rs) s t ->
      insert_link s t m = Ok (PASS, m).
Proof.
  intros Hc. destruct (session_sound sized calls Hc) as (rs & m & Hrun & _ & Hs).
  destruct Hs as (Hm & Hr & Htr & Hac & _).
  exists rs, m. split; [assumption|]. intros s t Ns Nt Hst.
  assert (Hne : (s =? t) = false).
  { apply Z.eqb_neq. intros ->. exact (Hac t Hst). }
  assert (He : entry m s t = false).
  { destruct (entry m s t) eqn:E; [|reflexivity].
    apply (Htr s t Ns Nt), clos_rt_eq_or_trans in E.
    destruct E as [->|E]; [destruct (Hac s Hst)|].
    destruct (Hac s). unfold path in *. now apply t_trans with t. }
  rewrite (insert_link_spec sized m s t Hm Ns Nt), Hne, He. simpl.
  do 2 f_equal. apply (matrix_ext sized); try assumption.
  - now apply (shaped_propagated sized).
  - now apply ranged_propagated.
  - intros k a Nk Na. rewrite (entry_propagated sized) by assumption.
    destruct (entry m k a) eqn:Eka; [reflexivity|]. simpl.
    destruct (entry m k t) eqn:Ekt; [|reflexivity].
    destruct (entry m s a) eqn:Esa; [|reflexivity]. simpl.
    rewrite <- Eka. symmetry. apply (Htr k a Nk Na).
    apply (Htr k t Nk Nt) in Ekt. apply (Htr s a Ns Na) in Esa.
    apply rt_trans with s; [assumption|].
    apply rt_trans with t; [|assumption].
    apply clos_rt_eq_or_trans. now right.
Qed.

(** X7, on every well-sized build:
    after [insert_ancestors(s, t)], node a is an ancestor of node k exactly
    when it was one before, or t was an ancestor of k and a was an ancestor
    of s: the ancestors of s are added to the descendants of t, and
    nothing else changes. *)
Theorem insert_ancestors_entries (m : matrix) (s t : Z) :
  shaped m -> node s -> node t ->
  exists m',
    insert_ancestors s t m = Ok (tt, m') /\
    forall k a, node k -> node a ->
      (is_ancestor k a m' = Ok (TRUE, m') <->
         is_ancestor k a m = Ok (TRUE, m) \/
         (is_ancestor k t m = Ok (TRUE, m) /\
          is_ancestor s a m = Ok (TRUE, m))).
Proof.
  intros Hm Ns Nt. exists (propagated s t m).
  split; [now apply (insert_ancestors_spec sized)|].
  intros k a Nk Na.
  assert (Hm' : shaped (propagated s t m)) by now apply (shaped_propagated sized).
  rewrite !(is_ancestor_TRUE sized) by assumption.
  rewrite (entry_propagated sized) by assumption.
  now rewrite orb_true_iff, andb_true_iff.
Qed.

(** X8, on every well-sized build:
    at the end of a session, for every accepted link from s to t,
    [is_ancestor(t, s)] is TRUE and the opposite link is refused:
    [insert_link(t, s)] returns FAIL and leaves the matrix as it is. *)
Theorem accepted_link_recorded (calls : list (Z * Z)) :
  Forall not_negative calls ->
  exists rs m,
    session calls = Ok (rs, m) /\
    forall s t, In (s, t) (accepted calls rs) ->
      is_ancestor t s m = Ok (TRUE, m) /\ insert_link t s m = Ok (FAIL, m).
Proof.
  intros Hc. destruct (session_sound sized calls Hc) as (rs & m & Hrun & _ & Hs).
  destruct Hs as (Hm & _ & Htr & _ & Hn).
  exists rs, m. split; [assumption|]. intros s t Hin.
  rewrite Forall_forall in Hn.
  destruct (Hn (s, t)) as [Ns Nt]; [now apply list_elem_of_In|].
  simpl in Ns, Nt.
  assert (He : entry m t s = true).
  { apply (Htr t s Nt Ns). apply rt_step. exact Hin. }
  split; [now apply (is_ancestor_TRUE sized)|].
  rewrite (insert_link_spec sized m t s Hm Nt Ns), He.
  now rewrite orb_true_r.
Qed.

(** X9, on every well-sized build:
    [set_ancestor] is idempotent: a second [set_ancestor(d, a)] leaves the
    matrix as the first one made it. *)
Theorem set_ancestor_idempotent (m : matrix) (d a : Z) :
  shaped m -> node d -> node a ->
  exists m',
    set_ancestor d a m = Ok (tt, m') /\ set_ancestor d a m' = Ok (tt, m').
Proof.
  intros Hm Nd Na.
  destruct (set_ancestor_entries sized m d a Hm Nd Na) as (m' & Hset & Hm' & He).
  exists m'. split; [assumption|].
  apply (set_ancestor_already sized); try assumption.
  rewrite (He d a Nd Na), !Z.eqb_refl. apply orb_true_r.
Qed.

(** X10, on every well-sized build:
    two [set_ancestor] calls commute: on a matrix of [FIELD] values,
    [set_ancestor(d, a)] then [set_ancestor(d', a')] gives the same matrix
    as the two calls in the opposite order. *)
Theorem set_ancestor_commutes (m : matrix) (d a d' a' : Z) :
  shaped m -> ranged m -> node d -> node a -> node d' -> node a' ->
  exists m1 m2 m',
    set_ancestor d a m = Ok (tt, m1) /\ set_ancestor d' a' m1 = Ok (tt, m') /\
    set_ancestor d' a' m = Ok (tt, m2) /\ set_ancestor d a m2 = Ok (tt, m').
Proof.
  intros Hm Hr Nd Na Nd' Na'.
  destruct (set_ancestor_full m d a Hm Hr Nd Na) as (m1 & H1 & S1 & R1 & E1).
  destruct (set_ancestor_full m1 d' a' S1 R1 Nd' Na')
    as (m12 & H12 & S12 & R12 & E12).
  destruct (set_ancestor_full m d' a' Hm Hr Nd' Na') as (m2 & H2 & S2 & R2 & E2).
  destruct (set_ancestor_full m2 d a S2 R2 Nd Na)
    as (m21 & H21 & S21 & R21 & E21).
  exists m1, m2, m12. repeat (split; [assumption|]).
  rewrite H21. do 2 f_equal. apply (matrix_ext sized); try assumption.
  intros i j Ni Nj.
  rewrite (E21 i j Ni Nj), (E2 i j Ni Nj), (E12 i j Ni Nj), (E1 i j Ni Nj).
  destruct (entry m i j), ((i =? d) && (j =? a)), ((i =? d') && (j =? a'));
    reflexivity.
Qed.

(** X11, on every well-sized build:
    on any matrix of the declared dimensions [initialize_ancestors] adds
    the diagonal and nothing else, and running it again changes nothing. *)
Theorem initialize_ancestors_any (m : matrix) :
  shaped m ->
  exists m',
    initialize_ancestors m = Ok (tt, m') /\ shaped m' /\
    (forall i j, node i -> node j ->
       (is_ancestor i j m' = Ok (TRUE, m') <->
          is_ancestor i j m = Ok (TRUE, m) \/ i = j)) /\
    initialize_ancestors m' = Ok (tt, m').
Proof.
  intros Hm.
  assert (Hks : Forall node (seqZ 0 TOTAL_NODES)).
  { apply Forall_seqZ. unfold node. lia. }
  destruct (set_diagonal sized (seqZ 0 TOTAL_NODES) Hks m Hm)
    as (m' & Hrun & Hm' & He).
  assert (He' : forall i j, node i -> node j ->
                  entry m' i j = entry m i j || (i =? j)).
  { intros i j Ni Nj. rewrite (He i j Ni Nj).
    rewrite bool_decide_eq_true_2; [now rewrite andb_true_r|].
    apply elem_of_seqZ. unfold node in Ni. lia. }
  exists m'. split; [exact Hrun|]. split; [assumption|]. split.
  - intros i j Ni Nj. rewrite !(is_ancestor_TRUE sized) by assumption.
    now rewrite (He' i j Ni Nj), orb_true_iff, Z.eqb_eq.
  - apply diagonal_already; try assumption.
    intros k Hk. apply elem_of_seqZ in Hk.
    assert (Nk : node k) by (unfold node; lia).
    rewrite (He' k k Nk Nk), Z.eqb_refl. apply orb_true_r.
Qed.

End Composition.

(** ** Requests that are decided without the matrix *)

Lemma insert_link_equal `{Build} (m : matrix) (s : Z) :
  s < TOTAL_NODES -> insert_link s s m = Ok (FAIL, m).
Proof.
  intros Hs. unfold insert_link.
  destruct (Z.geb_spec s TOTAL_NODES); [lia|].
  now rewrite Z.eqb_refl.
Qed.

(** X12, on every build and every matrix:
    a self-loop on an identifier below [TOTAL_NODES], negative ones
    included, is refused with FAIL before the matrix is consulted. *)
Theorem insert_link_self_loop `{Build} (m : matrix) (s : Z) :
  s < TOTAL_NODES -> insert_link s s m = Ok (FAIL, m).
Proof.
  intros Hs. unfold insert_link.
  destruct (Z.geb_spec s TOTAL_NODES) as [Hge|_]; [lia|].
  destruct (Z.eqb_spec s s) as [_|Hne]; [reflexivity|].
  now destruct Hne.
Qed.

(** X17, on every build and every matrix:
    a request with an identifier that is not below [TOTAL_NODES] is
    answered BAD_DATA before the matrix is consulted, whatever the other
    identifier is (equal, negative or valid), and the matrix stays as it
    is. *)
Theorem insert_link_above_range `{Build} (m : matrix) (s t : Z) :
  TOTAL_NODES <= s \/ TOTAL_NODES <= t -> insert_link s t m = Ok (BAD_DATA, m).
Proof.
  intros Hst. unfold insert_link.
  destruct (Z.geb_spec s TOTAL_NODES) as [_|Hs]; [reflexivity|].
  destruct (Z.geb_spec t TOTAL_NODES) as [_|Ht]; [reflexivity|].
  lia.
Qed.

(** ** Initialisation with a 64-bit [FIELD] *)

Lemma for_each_undefined (l1 l2 : list Z) (k : Z) (body : Z -> M unit)
      (m : matrix) (f : fault) :
  defined (for_each l1 body m) = true ->
  (forall m1, body k m1 = Undefined f) ->
  for_each (l1 ++ k :: l2) body m = Undefined f.
Proof.
  intros Hdef Hk.
  destruct (for_each l1 body m) as [[[] m1]|] eqn:H1; [|discriminate].
  rewrite (for_each_app l1 (k :: l2) body m m1 H1).
  cbn [for_each]. unfold bind. now rewrite Hk.
Qed.

Lemma seqZ_split_32 (n : Z) :
  32 < n -> seqZ 0 n = seqZ 0 32 ++ 32 :: seqZ 33 (n - 33).
Proof.
  intros Hn. replace n with (32 + (n - 32)) at 1 by lia.
  rewrite seqZ_app by lia. f_equal.
  rewrite seqZ_cons by lia. f_equal. f_equal; lia.
Qed.

Lemma initialize_ancestors_wide_shift :
  @initialize_ancestors LP64 (@zeroed LP64) = Undefined ShiftTooWide.
Proof.
  unfold initialize_ancestors.
  rewrite (seqZ_split_32 (@TOTAL_NODES LP64)) by (simpl; lia).
  apply for_each_undefined.
  - vm_compute. reflexivity.
  - intros m1. reflexivity.
Qed.

(** X13: on the source build with a 64-bit [long], [initialize_ancestors] on
    the zeroed matrix, the first thing [main] does, has no defined result:
    the nodes 0 to 31 get their diagonal bit, and for node 32
    [set_ancestor(32, 32)] shifts the [int] 1 by 32.  So no session on that
    build has a defined result, whatever the requests. *)
Theorem session_wide_shift (calls : list (Z * Z)) :
  @initialize_ancestors LP64 (@zeroed LP64) = Undefined ShiftTooWide /\
  @session LP64 calls = Undefined ShiftTooWide.
Proof.
  split; [exact initialize_ancestors_wide_shift|].
  unfold session, bind. now rewrite initialize_ancestors_wide_shift.
Qed.

(** ** What the program writes *)

Lemma io_bind_ok {A C} (c : IO A) (k : A -> IO C) (m m' : matrix)
      (out : list string) (a : A) :
  c m = (out, Ok (a, m')) ->
  io_bind c k m = (out ++ (k a m').1, (k a m').2).
Proof. intros H. unfold io_bind. rewrite H. now destruct (k a m'). Qed.

Lemma io_for_each_same {X} (xs : list X) (body : X -> IO unit)
      (out : X -> list string) (m : matrix) :
  (forall x, x ∈ xs -> body x m = (out x, Ok (tt, m))) ->
  io_for_each xs body m = (flat_map out xs, Ok (tt, m)).
Proof.
  induction xs as [|x xs IH]; intros H; [reflexivity|].
  cbn [io_for_each flat_map].
  rewrite (io_bind_ok _ _ m m (out x) tt) by (apply H, elem_of_cons; now left).
  rewrite IH; [reflexivity|].
  intros y Hy. apply H, elem_of_cons. now right.
Qed.

Lemma flat_map_singleton {X Y} (f : X -> Y) (xs : list X) :
  flat_map (fun x => [f x]) xs = f <$> xs.
Proof. induction xs as [|x xs IH]; simpl; [reflexivity|now rewrite IH]. Qed.

Section Printing.
Context {B : Build}.

Lemma insert_link_printing_result (m : matrix) (s t : Z) :
  (insert_link_printing s t m).2 = insert_link s t m.
Proof.
  unfold insert_link_printing, insert_link.
  destruct (s >=? TOTAL_NODES); [reflexivity|].
  destruct (t >=? TOTAL_NODES); [reflexivity|].
  destruct (s =? t); [reflexivity|].
  unfold io_bind, quiet, bind.
  destruct (is_ancestor s t m) as [[v m1]|]; [|reflexivity].
  destruct (truthy v); [reflexivity|].
  now destruct (insert_ancestors s t m1) as [[[] m2]|].
Qed.

Lemma insert_link_printing_said (m : matrix) (s t : Z) :
  (insert_link_printing s t m).1 = said s t.
Proof.
  unfold said, insert_link_printing.
  destruct (s >=? TOTAL_NODES); [reflexivity|].
  destruct (t >=? TOTAL_NODES); [reflexivity|].
  destruct (s =? t); [reflexivity|].
  unfold io_bind, quiet.
  destruct (is_ancestor s t m) as [[v m1]|],
           (is_ancestor s t []) as [[v' m1']|]; simpl; try reflexivity.
  - destruct (truthy v), (truthy v'); simpl; try reflexivity;
      try (now destruct (insert_ancestors s t m1) as [[[] ?]|]);
      try (now destruct (insert_ancestors s t m1') as [[[] ?]|]).
    now destruct (insert_ancestors s t m1) as [[[] ?]|],
                 (insert_ancestors s t m1') as [[[] ?]|].
  - destruct (truthy v); simpl; [reflexivity|].
    now destruct (insert_ancestors s t m1) as [[[] ?]|].
  - destruct (truthy v'); simpl; [reflexivity|].
    now destruct (insert_ancestors s t m1') as [[[] ?]|].
Qed.

(** X14, on every build and every matrix:
    [insert_link] returns the same result and leaves the same matrix
    whether or not its output is looked at; what it writes depends on its
    arguments only; and it writes nothing exactly when both identifiers are
    below [TOTAL_NODES] and different, that is, when it decides by the
    matrix.  Every other request gets an "input ignored" explanation. *)
Theorem insert_link_output (m : matrix) (s t : Z) :
  (insert_link_printing s t m).2 = insert_link s t m /\
  (insert_link_printing s t m).1 = said s t /\
  (said s t = [] <-> s < TOTAL_NODES /\ t < TOTAL_NODES /\ s <> t) /\
  (said s t <> [] -> exists text, said s t = ["input ignored: "; text]).
Proof.
  split; [apply insert_link_printing_result|].
  split; [apply insert_link_printing_said|].
  unfold said, insert_link_printing.
  destruct (Z.geb_spec s TOTAL_NODES) as [Hs|Hs].
  { split; [split; [discriminate|lia]|]. intros _. eexists. reflexivity. }
  destruct (Z.geb_spec t TOTAL_NODES) as [Ht|Ht].
  { split; [split; [discriminate|lia]|]. intros _. eexists. reflexivity. }
  destruct (Z.eqb_spec s t) as [Hst|Hst].
  { split; [split; [discriminate|lia]|]. intros _. eexists. reflexivity. }
  assert (Hnil : ((t0 <~ quiet (is_ancestor s t);;
                   if truthy t0 then io_ret FAIL
                   else quiet (insert_ancestors s t) ~;; io_ret PASS) []).1
                 = []).
  { unfold io_bind, quiet.
    destruct (is_ancestor s t []) as [[v m1]|]; [|reflexivity].
    destruct (truthy v); [reflexivity|].
    now destruct (insert_ancestors s t m1) as [[[] ?]|]. }
  rewrite Hnil. split; [split; [lia|reflexivity]|]. intros H. now destruct H.
Qed.

(** The result of [insert_link], when it has one, is one of the three
    return values. *)
Lemma insert_link_result (m m' : matrix) (s t r : Z) :
  insert_link s t m = Ok (r, m') -> r = PASS \/ r = FAIL \/ r = BAD_DATA.
Proof.
  unfold insert_link.
  destruct (s >=? TOTAL_NODES); [intros [= <- _]; tauto|].
  destruct (t >=? TOTAL_NODES); [intros [= <- _]; tauto|].
  destruct (s =? t); [intros [= <- _]; tauto|].
  unfold bind. destruct (is_ancestor s t m) as [[v m1]|]; [|discriminate].
  destruct (truthy v); [intros [= <- _]; tauto|].
  destruct (insert_ancestors s t m1) as [[[] m2]|]; [|discriminate].
  intros [= <- _]. tauto.
Qed.

Lemma main_turn_spec (m m' : matrix) (s t r : Z) :
  insert_link s t m = Ok (r, m') ->
  main_turn (s, t) m
  = ("Enter start end:  " :: said s t ++ [verdict_line r], Ok (tt, m')).
Proof.
  intros Hrun. unfold main_turn.
  rewrite (io_bind_ok _ _ m m ["Enter start end:  "] tt) by reflexivity.
  assert (Hp : insert_link_printing s t m = (said s t, Ok (r, m'))).
  { pose proof (insert_link_printing_result m s t) as H2.
    pose proof (insert_link_printing_said m s t) as H1.
    destruct (insert_link_printing s t m) as [o r']. simpl in H1, H2.
    now rewrite H1, H2, Hrun. }
  rewrite (io_bind_ok _ _ m m' (said s t) r Hp).
  destruct (insert_link_result m m' s t r Hrun) as [-> | [-> | ->]];
    cbn; reflexivity.
Qed.

Lemma main_loop_spec (input : list (Z * Z)) :
  forall (m m' : matrix) (rs : list Z),
    insert_links input m = Ok (rs, m') ->
    io_for_each input main_turn m = (transcript input rs, Ok (tt, m')).
Proof.
  induction input as [|[s t] input IH]; intros m m' rs Hrun.
  - injection Hrun as <- <-. reflexivity.
  - cbn [insert_links] in Hrun. unfold bind in Hrun.
    destruct (insert_link s t m) as [[r m1]|] eqn:H1; [|discriminate].
    destruct (insert_links input m1) as [[rs' m2]|] eqn:H2; [|discriminate].
    injection Hrun as <- <-.
    cbn [io_for_each transcript].
    rewrite (io_bind_ok _ _ _ _ _ _ (main_turn_spec m m1 s t r H1)).
    rewrite (IH m1 m2 rs' H2). cbn. now rewrite <- app_assoc.
Qed.

(** A run of [main] whose session is defined writes the transcript of that
    session and ends in its matrix. *)
Lemma main_of_session (input : list (Z * Z)) (rs : list Z) (m : matrix) :
  session input = Ok (rs, m) ->
  main input zeroed = (transcript input rs, Ok (tt, m)).
Proof.
  unfold session, main, bind. intros Hrun.
  destruct (initialize_ancestors zeroed) as [[[] m0]|] eqn:H0; [|discriminate].
  rewrite (io_bind_ok _ _ zeroed m0 [] tt) by (unfold quiet; now rewrite H0).
  now rewrite (main_loop_spec input m0 m rs Hrun).
Qed.

End Printing.

Section Transcripts.
Context {B : Build}.
Hypothesis sized : well_sized.

(** X15, on every well-sized build:
    a run of [main] on requests whose integers are not negative is defined
    and ends in the matrix of the session; for every request it writes the
    prompt, then what [insert_link] writes, then exactly one line for the
    result: "Good insert" for PASS, "Cycle found" for FAIL and "Bad (out of
    bounds) data" for BAD_DATA. *)
Theorem main_transcript (input : list (Z * Z)) :
  Forall not_negative input ->
  exists rs m,
    session input = Ok (rs, m) /\ length rs = length input /\
    main input zeroed = (transcript input rs, Ok (tt, m)).
Proof.
  intros Hc.
  destruct (session_sound sized input Hc) as (rs & m & Hrun & Hlen & _).
  exists rs, m. split; [assumption|]. split; [assumption|].
  now apply main_of_session.
Qed.

Lemma corner_nodes : 8 <= TOTAL_NODES.
Proof.
  pose proof (TOTAL_NODES_split sized) as HN.
  pose proof (TOTAL_NODES_int sized).
  pose proof (FIELDS_PER_NODE_nonneg sized).
  destruct sized as (Hs & _). unfold FIELD_SIZE in *. nia.
Qed.

(** X16, on every well-sized build:
    [print_corner] is defined on every matrix of the declared dimensions
    (its 6 by 6 corner always lies inside the matrix), leaves the matrix
    unchanged, and writes six lines of six cells, "1 " where
    [is_ancestor(i, j)] is TRUE and "0 " where it is FALSE, and then an
    empty line. *)
Theorem print_corner_output (m : matrix) :
  shaped m ->
  print_corner m = (corner m, Ok (tt, m)) /\
  forall i j, 0 <= i < 6 -> 0 <= j < 6 ->
    (cell m i j = "1 " <-> is_ancestor i j m = Ok (TRUE, m)) /\
    (cell m i j = "0 " <-> is_ancestor i j m = Ok (FALSE, m)).
Proof.
  intros Hm. pose proof corner_nodes as HN.
  assert (Hnode : forall i, i ∈ seqZ 0 6 -> node i).
  { intros i Hi. apply elem_of_seqZ in Hi. unfold node. lia. }
  split.
  - unfold print_corner, corner. cbv zeta.
    change (0 + 6 - 0) with 6.
    rewrite (io_bind_ok _ _ m m
               (flat_map (fun i => (cell m i <$> seqZ 0 6) ++ [nl]) (seqZ 0 6))
               tt); [reflexivity|].
    apply io_for_each_same. intros i Hi.
    rewrite (io_bind_ok _ _ m m (cell m i <$> seqZ 0 6) tt); [reflexivity|].
    rewrite <- flat_map_singleton. apply io_for_each_same. intros j Hj.
    unfold io_bind, quiet.
    rewrite (is_ancestor_spec sized m i j Hm (Hnode i Hi) (Hnode j Hj)).
    unfold cell. now destruct (entry m i j).
  - intros i j Hi Hj.
    assert (Ni : node i) by (unfold node; lia).
    assert (Nj : node j) by (unfold node; lia).
    rewrite (is_ancestor_spec sized m i j Hm Ni Nj). unfold cell.
    destruct (entry m i j); split; split; intros H;
      try reflexivity; discriminate.
Qed.

End Transcripts.

(** ** The primitives and the layout *)

Section Layout_properties.
Context {B : Build}.
Hypothesis sized : well_sized.

(** X18, on every well-sized build:
    a request with a negative start node and a valid end node passes the
    range test of [insert_link] and has no defined result: [is_ancestor]
    reads the row before the array. *)
Theorem insert_link_negative (m : matrix) (s t : Z) :
  s < 0 -> node t -> insert_link s t m = Undefined OutOfBounds.
Proof.
  intros Hs Nt. pose proof (TOTAL_NODES_int sized) as HN.
  assert (Hin : s < TOTAL_NODES /\ t < TOTAL_NODES /\ s <> t)
    by (unfold node in Nt; lia).
  unfold insert_link.
  destruct (Z.geb_spec s TOTAL_NODES); [lia|].
  destruct (Z.geb_spec t TOTAL_NODES); [lia|].
  destruct (Z.eqb_spec s t); [lia|].
  (* the mask is computed, then row [s] is looked up *)
  unfold is_ancestor.
  destruct (bit_of_node sized t Nt) as [-> Hb].
  destruct (shl_one (t mod FIELD_SIZE) (FIELD_SIZE_le sized) Hb)
    as (one & -> & _).
  unfold bind, lift, load.
  rewrite (index_outside m s); [reflexivity|]. now left.
Qed.

(** X19, on every well-sized build:
    after [set_ancestor(d, a)], [is_ancestor(d, a)] is TRUE and
    [is_ancestor] gives for every other pair of nodes the answer it gave
    before. *)
Theorem set_then_is_ancestor (m : matrix) (d a : Z) :
  shaped m -> node d -> node a ->
  exists m',
    set_ancestor d a m = Ok (tt, m') /\
    is_ancestor d a m' = Ok (TRUE, m') /\
    forall d' a', node d' -> node a' -> (d', a') <> (d, a) ->
      exists b, is_ancestor d' a' m = Ok (b, m) /\
                is_ancestor d' a' m' = Ok (b, m').
Proof.
  intros Hm Nd Na.
  destruct (set_ancestor_entries sized m d a Hm Nd Na) as (m' & Hset & Hm' & He).
  exists m'. split; [exact Hset|]. split.
  - rewrite (is_ancestor_spec sized m' d a Hm' Nd Na), (He d a Nd Na).
    now rewrite !Z.eqb_refl, orb_true_r.
  - intros d' a' Nd' Na' Hne.
    exists (if entry m d' a' then TRUE else FALSE).
    split; [now apply (is_ancestor_spec sized)|].
    rewrite (is_ancestor_spec sized m' d' a' Hm' Nd' Na'), (He d' a' Nd' Na').
    destruct (Z.eqb_spec d' d) as [Hd|_], (Z.eqb_spec a' a) as [Ha|_];
      simpl; rewrite ?orb_false_r; try reflexivity.
    subst. now destruct Hne.
Qed.

(** X20, on every well-sized build:
    the matrix holds the relation and nothing else: two matrices of the
    declared dimensions whose fields are [FIELD] values and on which
    [is_ancestor] gives TRUE for the same pairs of nodes are equal (every
    bit of every field is the bit of one node). *)
Theorem answers_determine_matrix (m1 m2 : matrix) :
  shaped m1 -> shaped m2 -> ranged m1 -> ranged m2 ->
  (forall i j, node i -> node j ->
     (is_ancestor i j m1 = Ok (TRUE, m1) <->
      is_ancestor i j m2 = Ok (TRUE, m2))) ->
  m1 = m2.
Proof.
  intros S1 S2 R1 R2 H. apply (matrix_ext sized); try assumption.
  intros i j Ni Nj. specialize (H i j Ni Nj).
  rewrite !(is_ancestor_TRUE sized) in H by assumption.
  destruct (entry m1 i j), (entry m2 i j); try reflexivity.
  - symmetry. now apply H.
  - now apply H.
Qed.

End Layout_properties.

(** ** The outcomes of [insert_link] *)

Section Outcomes.
Context {B : Build}.

(** [is_ancestor], when it has a result, leaves the matrix as it is. *)
Lemma is_ancestor_reads (m m1 : matrix) (i j v : Z) :
  is_ancestor i j m = Ok (v, m1) -> m1 = m.
Proof.
  unfold is_ancestor, bind, lift, load, ret.
  destruct (shl_int 1 (target_bit j)) as [one|]; [|discriminate].
  destruct (index m i) as [r|]; [|discriminate].
  destruct (index r (target_chunk j)) as [w|]; [|discriminate].
  destruct (truthy _); now intros [= _ <-].
Qed.

(** X21, on every build and every matrix:
    whenever [insert_link] has a result, it is PASS, FAIL or BAD_DATA; it is
    BAD_DATA exactly when an identifier is not below [TOTAL_NODES]; PASS is
    only given to two different identifiers below [TOTAL_NODES]; and with
    any result but PASS the matrix is left as it was. *)
Theorem insert_link_outcomes (m m' : matrix) (s t r : Z) :
  insert_link s t m = Ok (r, m') ->
  (r = PASS \/ r = FAIL \/ r = BAD_DATA) /\
  (r = BAD_DATA <-> TOTAL_NODES <= s \/ TOTAL_NODES <= t) /\
  (r = PASS -> s < TOTAL_NODES /\ t < TOTAL_NODES /\ s <> t) /\
  (r <> PASS -> m' = m).
Proof.
  unfold insert_link.
  destruct (Z.geb_spec s TOTAL_NODES) as [Hs|Hs].
  { intros [= <- <-]. repeat split; try tauto; try discriminate. }
  destruct (Z.geb_spec t TOTAL_NODES) as [Ht|Ht].
  { intros [= <- <-]. repeat split; try tauto; try discriminate. }
  destruct (Z.eqb_spec s t) as [Hst|Hst].
  { intros [= <- <-]. repeat split; try tauto; try discriminate; lia. }
  unfold bind. destruct (is_ancestor s t m) as [[v m1]|] eqn:Hq; [|discriminate].
  apply is_ancestor_reads in Hq as ->.
  destruct (truthy v).
  { intros [= <- <-]. repeat split; try tauto; try discriminate; lia. }
  destruct (insert_ancestors s t m) as [[[] m2]|]; [|discriminate].
  intros [= <- <-]. repeat split; try tauto; try discriminate; try lia.
Qed.

End Outcomes.

(** ** The further properties on the source build with a 32-bit [long] *)

Section Source_ILP32_further.
#[local] Existing Instance ILP32.

Lemma three_calls : Forall not_negative [(1, 2); (2, 3); (3, 1)].
Proof. repeat constructor; simpl; lia. Defined.

Lemma accepted_links_acyclic_witness :
  Forall not_negative [(1, 2); (2, 3); (3, 1)] /\
  exists rs m,
    session [(1, 2); (2, 3); (3, 1)] = Ok (rs, m) /\
    forall x, ~ path (accepted [(1, 2); (2, 3); (3, 1)] rs) x x.
Proof.
  split; [exact three_calls|].
  exact (accepted_links_acyclic ILP32_well_sized _ three_calls).
Defined.

Lemma insert_link_verdict_witness :
  Forall not_negative [(1, 2); (2, 3); (3, 1)] /\
  exists rs m,
    session [(1, 2); (2, 3); (3, 1)] = Ok (rs, m) /\
    forall s t, node s -> node t ->
      (insert_link s t m = Ok (FAIL, m) <->
         s = t \/ path (accepted [(1, 2); (2, 3); (3, 1)] rs) t s) /\
      ((exists m', insert_link s t m = Ok (PASS, m')) <->
         ~ (s = t \/ path (accepted [(1, 2); (2, 3); (3, 1)] rs) t s)).
Proof.
  split; [exact three_calls|].
  exact (insert_link_verdict ILP32_well_sized _ three_calls).
Defined.

Lemma is_ancestor_transitive_witness :
  Forall not_negative [(1, 2); (2, 3); (3, 1)] /\
  exists rs m,
    session [(1, 2); (2, 3); (3, 1)] = Ok (rs, m) /\
    forall i j k, node i -> node j -> node k ->
      is_ancestor i j m = Ok (TRUE, m) -> is_ancestor j k m = Ok (TRUE, m) ->
      is_ancestor i k m = Ok (TRUE, m).
Proof.
  split; [exact three_calls|].
  exact (is_ancestor_transitive ILP32_well_sized _ three_calls).
Defined.

Lemma is_ancestor_antisymmetric_witness :
  Forall not_negative [(1, 2); (2, 3); (3, 1)] /\
  exists rs m,
    session [(1, 2); (2, 3); (3, 1)] = Ok (rs, m) /\
    forall i j, node i -> node j ->
      is_ancestor i j m = Ok (TRUE, m) -> is_ancestor j i m = Ok (TRUE, m) ->
      i = j.
Proof.
  split; [exact three_calls|].
  exact (is_ancestor_antisymmetric ILP32_well_sized _ three_calls).
Defined.

Lemma rejected_stays_rejected_witness :
  shaped (propagated 2 3 (propagated 1 2 fresh)) /\ node 3 /\ node 1 /\
  Forall not_negative [(3, 4); (4, 5)] /\
  insert_link 3 1 (propagated 2 3 (propagated 1 2 fresh))
  = Ok (FAIL, propagated 2 3 (propagated 1 2 fresh)) /\
  session [(1, 2); (2, 3)]
  = Ok ([PASS; PASS], propagated 2 3 (propagated 1 2 fresh)) /\
  3 <> 1 /\
  exists rs m',
    (insert_links [(3, 4); (4, 5)] (propagated 2 3 (propagated 1 2 fresh))
     = Ok (rs, m') /\
     insert_link 3 1 m' = Ok (FAIL, m')) /\
    rs = [PASS; PASS] /\
    m' = propagated 4 5 (propagated 3 4 (propagated 2 3 (propagated 1 2 fresh))).
Proof.
  assert (N1 : node 1) by (apply node_ILP32; lia).
  assert (N3 : node 3) by (apply node_ILP32; lia).
  assert (N4 : node 4) by (apply node_ILP32; lia).
  assert (N5 : node 5) by (apply node_ILP32; lia).
  assert (Hne : 3 <> 1) by lia.
  destruct two_links as [Hm2 Hrun2].
  assert (Hc : Forall not_negative [(3, 4); (4, 5)]).
  { repeat constructor; simpl; lia. }
  assert (Hcycle : (3 =? 1) || entry (propagated 2 3 (propagated 1 2 fresh)) 3 1
                   = true).
  { rewrite (entry_two_links 3 1 N3 N1). reflexivity. }
  pose proof (link_refused ILP32_well_sized _ 3 1 Hm2 N3 N1 Hcycle) as Hfail.
  assert (H34 : (3 =? 4) || entry (propagated 2 3 (propagated 1 2 fresh)) 3 4
                = false).
  { rewrite (entry_two_links 3 4 N3 N4). reflexivity. }
  destruct (link_accepted ILP32_well_sized _ 3 4 Hm2 N3 N4 H34) as [Hthird Hm3].
  assert (H45 : (4 =? 5)
                || entry (propagated 3 4
                            (propagated 2 3 (propagated 1 2 fresh))) 4 5
                = false).
  { rewrite (entry_propagated ILP32_well_sized _ 3 4 4 5 Hm2 N3 N4 N4 N5).
    rewrite (entry_two_links 4 5 N4 N5), (entry_two_links 4 4 N4 N4),
      (entry_two_links 3 5 N3 N5). reflexivity. }
  destruct (link_accepted ILP32_well_sized _ 4 5 Hm3 N4 N5 H45) as [Hfourth _].
  assert (Hlater : insert_links [(3, 4); (4, 5)]
                     (propagated 2 3 (propagated 1 2 fresh))
                   = Ok ([PASS; PASS],
                         propagated 4 5
                           (propagated 3 4
                              (propagated 2 3 (propagated 1 2 fresh))))).
  { apply (insert_links_cons 3 4 PASS _ [PASS] _ _ _ Hthird).
    apply (insert_links_cons 4 5 PASS _ [] _ _ _ Hfourth). reflexivity. }
  split; [exact Hm2|]. split; [exact N3|]. split; [exact N1|].
  split; [exact Hc|]. split; [exact Hfail|]. split; [exact Hrun2|].
  split; [exact Hne|].
  destruct (rejected_stays_rejected ILP32_well_sized
              (propagated 2 3 (propagated 1 2 fresh)) 3 1 [(3, 4); (4, 5)]
              Hm2 N3 N1 Hc Hfail) as (rs & m' & Hrun & Hstill).
  exists rs, m'. split; [split; [exact Hrun|exact Hstill]|].
  rewrite Hlater in Hrun.
  destruct (Ok_pair_inv _ _ _ _ Hrun) as [<- <-]. split; reflexivity.
Defined.

Lemma redundant_link_changes_nothing_witness :
  Forall not_negative [(1, 2); (2, 3); (3, 1)] /\
  exists rs m,
    session [(1, 2); (2, 3); (3, 1)] = Ok (rs, m) /\
    forall s t, node s -> node t ->
      path (accepted [(1, 2); (2, 3); (3, 1)] rs) s t ->
      insert_link s t m = Ok (PASS, m).
Proof.
  split; [exact three_calls|].
  exact (redundant_link_changes_nothing ILP32_well_sized _ three_calls).
Defined.

Lemma insert_ancestors_entries_witness :
  shaped fresh /\ node 1 /\ node 2 /\
  is_ancestor 2 1 fresh = Ok (FALSE, fresh) /\
  is_ancestor 2 2 fresh = Ok (TRUE, fresh) /\
  is_ancestor 1 1 fresh = Ok (TRUE, fresh) /\
  exists m',
    (insert_ancestors 1 2 fresh = Ok (tt, m') /\
     forall k a, node k -> node a ->
       (is_ancestor k a m' = Ok (TRUE, m') <->
          is_ancestor k a fresh = Ok (TRUE, fresh) \/
          (is_ancestor k 2 fresh = Ok (TRUE, fresh) /\
           is_ancestor 1 a fresh = Ok (TRUE, fresh)))) /\
    is_ancestor 2 1 m' = Ok (TRUE, m').
Proof.
  assert (Hm : shaped fresh) by apply (shaped_fresh ILP32_well_sized).
  assert (H1 : node 1) by (apply node_ILP32; lia).
  assert (H2 : node 2) by (apply node_ILP32; lia).
  assert (T22 : is_ancestor 2 2 fresh = Ok (TRUE, fresh)).
  { rewrite (is_ancestor_spec ILP32_well_sized fresh 2 2 Hm H2 H2).
    rewrite (entry_fresh ILP32_well_sized 2 2 H2 H2). reflexivity. }
  assert (T11 : is_ancestor 1 1 fresh = Ok (TRUE, fresh)).
  { rewrite (is_ancestor_spec ILP32_well_sized fresh 1 1 Hm H1 H1).
    rewrite (entry_fresh ILP32_well_sized 1 1 H1 H1). reflexivity. }
  assert (F21 : is_ancestor 2 1 fresh = Ok (FALSE, fresh)).
  { rewrite (is_ancestor_spec ILP32_well_sized fresh 2 1 Hm H2 H1).
    rewrite (entry_fresh ILP32_well_sized 2 1 H2 H1). reflexivity. }
  split; [exact Hm|]. split; [exact H1|]. split; [exact H2|].
  split; [exact F21|]. split; [exact T22|]. split; [exact T11|].
  destruct (insert_ancestors_entries ILP32_well_sized fresh 1 2 Hm H1 H2)
    as (m' & Hrun & Hiff).
  exists m'. split; [split; [exact Hrun|exact Hiff]|].
  apply (proj2 (Hiff 2 1 H2 H1)). right. split; [exact T22|exact T11].
Defined.

Lemma accepted_link_recorded_witness :
  Forall not_negative [(1, 2); (2, 3); (3, 1)] /\
  exists rs m,
    session [(1, 2); (2, 3); (3, 1)] = Ok (rs, m) /\
    forall s t, In (s, t) (accepted [(1, 2); (2, 3); (3, 1)] rs) ->
      is_ancestor t s m = Ok (TRUE, m) /\ insert_link t s m = Ok (FAIL, m).
Proof.
  split; [exact three_calls|].
  exact (accepted_link_recorded ILP32_well_sized _ three_calls).
Defined.

Lemma set_ancestor_idempotent_witness :
  shaped zeroed /\ node 1 /\ node 2 /\
  exists m',
    set_ancestor 1 2 zeroed = Ok (tt, m') /\ set_ancestor 1 2 m' = Ok (tt, m').
Proof.
  assert (Hm : shaped zeroed) by apply shaped_zeroed.
  assert (H1 : node 1) by (unfold node; simpl; lia).
  assert (H2 : node 2) by (unfold node; simpl; lia).
  split; [exact Hm|]. split; [exact H1|]. split; [exact H2|].
  exact (set_ancestor_idempotent ILP32_well_sized zeroed 1 2 Hm H1 H2).
Defined.

Lemma set_ancestor_commutes_witness :
  shaped zeroed /\ ranged zeroed /\ node 1 /\ node 2 /\ node 40 /\
  exists m1 m2 m',
    set_ancestor 1 2 zeroed = Ok (tt, m1) /\ set_ancestor 1 40 m1 = Ok (tt, m') /\
    set_ancestor 1 40 zeroed = Ok (tt, m2) /\ set_ancestor 1 2 m2 = Ok (tt, m').
Proof.
  assert (Hm : shaped zeroed) by apply shaped_zeroed.
  assert (Hr : ranged zeroed) by apply (ranged_zeroed ILP32_well_sized).
  assert (H1 : node 1) by (unfold node; simpl; lia).
  assert (H2 : node 2) by (unfold node; simpl; lia).
  assert (H3 : node 40) by (unfold node; simpl; lia).
  split; [exact Hm|]. split; [exact Hr|]. split; [exact H1|].
  split; [exact H2|]. split; [exact H3|].
  exact (set_ancestor_commutes ILP32_well_sized zeroed 1 2 1 40
           Hm Hr H1 H2 H1 H3).
Defined.

Lemma initialize_ancestors_any_witness :
  shaped zeroed /\
  exists m',
    initialize_ancestors zeroed = Ok (tt, m') /\ shaped m' /\
    (forall i j, node i -> node j ->
       (is_ancestor i j m' = Ok (TRUE, m') <->
          is_ancestor i j zeroed = Ok (TRUE, zeroed) \/ i = j)) /\
    initialize_ancestors m' = Ok (tt, m').
Proof.
  assert (Hm : shaped zeroed) by apply shaped_zeroed.
  split; [exact Hm|].
  exact (initialize_ancestors_any ILP32_well_sized zeroed Hm).
Defined.

Lemma insert_link_self_loop_witness :
  -3 < TOTAL_NODES /\ insert_link (-3) (-3) [] = Ok (FAIL, []).
Proof.
  assert (H : -3 < TOTAL_NODES) by (simpl; lia).
  split; [exact H|]. exact (insert_link_self_loop [] (-3) H).
Defined.

Lemma insert_link_above_range_witness :
  (TOTAL_NODES <= 65536 \/ TOTAL_NODES <= -1) /\
  insert_link 65536 (-1) [] = Ok (BAD_DATA, []).
Proof.
  assert (H : TOTAL_NODES <= 65536 \/ TOTAL_NODES <= -1) by (simpl; lia).
  split; [exact H|]. exact (insert_link_above_range [] 65536 (-1) H).
Defined.

Lemma main_transcript_witness :
  Forall not_negative [(1, 2); (2, 3); (3, 1)] /\
  exists rs m,
    session [(1, 2); (2, 3); (3, 1)] = Ok (rs, m) /\ length rs = 3%nat /\
    main [(1, 2); (2, 3); (3, 1)] zeroed
    = (transcript [(1, 2); (2, 3); (3, 1)] rs, Ok (tt, m)).
Proof.
  split; [exact three_calls|].
  exact (main_transcript ILP32_well_sized _ three_calls).
Defined.

Lemma print_corner_output_witness :
  shaped zeroed /\
  print_corner zeroed = (corner zeroed, Ok (tt, zeroed)) /\
  forall i j, 0 <= i < 6 -> 0 <= j < 6 ->
    (cell zeroed i j = "1 " <-> is_ancestor i j zeroed = Ok (TRUE, zeroed)) /\
    (cell zeroed i j = "0 " <-> is_ancestor i j zeroed = Ok (FALSE, zeroed)).
Proof.
  assert (Hm : shaped zeroed) by apply shaped_zeroed.
  split; [exact Hm|].
  exact (print_corner_output ILP32_well_sized zeroed Hm).
Defined.

Lemma insert_link_negative_witness :
  -1 < 0 /\ node 0 /\ insert_link (-1) 0 zeroed = Undefined OutOfBounds.
Proof.
  assert (H : -1 < 0) by lia.
  assert (H0 : node 0) by (unfold node; simpl; lia).
  split; [exact H|]. split; [exact H0|].
  exact (insert_link_negative ILP32_well_sized zeroed (-1) 0 H H0).
Defined.

Lemma set_then_is_ancestor_witness :
  shaped zeroed /\ node 1 /\ node 2 /\
  exists m',
    set_ancestor 1 2 zeroed = Ok (tt, m') /\
    is_ancestor 1 2 m' = Ok (TRUE, m') /\
    forall d' a', node d' -> node a' -> (d', a') <> (1, 2) ->
      exists b, is_ancestor d' a' zeroed = Ok (b, zeroed) /\
                is_ancestor d' a' m' = Ok (b, m').
Proof.
  assert (Hm : shaped zeroed) by apply shaped_zeroed.
  assert (H1 : node 1) by (unfold node; simpl; lia).
  assert (H2 : node 2) by (unfold node; simpl; lia).
  split; [exact Hm|]. split; [exact H1|]. split; [exact H2|].
  exact (set_then_is_ancestor ILP32_well_sized zeroed 1 2 Hm H1 H2).
Defined.

Lemma answers_determine_matrix_witness :
  shaped zeroed /\ ranged zeroed /\
  (forall i j, node i -> node j ->
     (is_ancestor i j zeroed = Ok (TRUE, zeroed) <->
      is_ancestor i j zeroed = Ok (TRUE, zeroed))) /\
  zeroed = zeroed.
Proof.
  assert (Hm : shaped zeroed) by apply shaped_zeroed.
  assert (Hr : ranged zeroed) by apply (ranged_zeroed ILP32_well_sized).
  assert (H : forall i j, node i -> node j ->
            (is_ancestor i j zeroed = Ok (TRUE, zeroed) <->
             is_ancestor i j zeroed = Ok (TRUE, zeroed))) by (intros; reflexivity).
  split; [exact Hm|]. split; [exact Hr|]. split; [exact H|].
  exact (answers_determine_matrix ILP32_well_sized zeroed zeroed Hm Hm Hr Hr H).
Defined.

Lemma insert_link_outcomes_witness :
  insert_link 1 1 [] = Ok (FAIL, []) /\
  (FAIL = PASS \/ FAIL = FAIL \/ FAIL = BAD_DATA) /\
  (FAIL = BAD_DATA <-> TOTAL_NODES <= 1 \/ TOTAL_NODES <= 1) /\
  (FAIL = PASS -> 1 < TOTAL_NODES /\ 1 < TOTAL_NODES /\ 1 <> 1) /\
  (FAIL <> PASS -> @nil (list Z) = []).
Proof.
  assert (H : insert_link 1 1 [] = Ok (FAIL, [])) by reflexivity.
  split; [exact H|]. exact (insert_link_outcomes [] [] 1 1 FAIL H).
Defined.

End Source_ILP32_further.

(** ** Runs on the reduced build, with their output *)

Example main_says :
  (@main small [(1, 2); (2, 1); (2, 2); (64, 0)] (@zeroed small)).1
  = ["Enter start end:  "; "Good insert" +:+ nl;
     "Enter start end:  "; "Cycle found" +:+ nl;
     "Enter start end:  "; "input ignored: ";
     "start and end are identical (= 2)" +:+ nl; "Cycle found" +:+ nl;
     "Enter start end:  "; "input ignored: ";
     "start (= 64) must be less than TOTAL_NODES (= 64)" +:+ nl;
     "Bad (out of bounds) data" +:+ nl].
Proof. vm_compute. reflexivity. Qed.

Example corner_after_two_links :
  ((quiet (@initialize_ancestors small) ~;;
    quiet (@insert_links small [(1, 2); (2, 3)]) ~;;
    @print_corner small) (@zeroed small)).1
  = ["1 "; "0 "; "0 "; "0 "; "0 "; "0 "; nl;
     "0 "; "1 "; "0 "; "0 "; "0 "; "0 "; nl;
     "0 "; "1 "; "1 "; "0 "; "0 "; "0 "; nl;
     "0 "; "1 "; "1 "; "1 "; "0 "; "0 "; nl;
     "0 "; "0 "; "0 "; "0 "; "1 "; "0 "; nl;
     "0 "; "0 "; "0 "; "0 "; "0 "; "1 "; nl; nl].
Proof. vm_compute. reflexivity. Qed.
